(** * mcp-obsidian: path confinement, search and note operations

    A shallow embedding of [src/index.ts].  Every function of the source
    that the properties below talk about is transcribed under its own
    name: [normalizePath], [expandHome], [vaultDirectories],
    [validatePath], [ensureDirectory], [searchNotes] (with its inner
    [search]) and the four tool handlers of the [CallToolRequestSchema]
    dispatcher; then [parseArgs], the directory check at start-up and
    the [ListToolsRequestSchema] handler.

    What the source takes from its runtime is modelled next to it:
    - JavaScript strings are [string]s (byte strings; [toLowerCase] folds
      the ASCII letters only);
    - Node's [path] module is the POSIX one ([path.sep] is "/");
    - [fs/promises] acts on a [disk]: a finite map from resolved component
      lists to files, directories and symbolic links, with the kernel's
      bound on the number of links followed in one resolution;
    - [async] functions are run to completion one after the other (the
      elements of a [Promise.all] from left to right), a thrown [Error]
      is the [Throw] outcome and [try]/[catch] is [try_catch];
    - every call into [fs] is recorded in the [trace] of the [world];
    - the regular expression engine is a parameter of the process;
    - the recursion of [search] takes a budget, [fuel]; a budget above
      the depth of the disk is never used up
      ([searchNotes_terminates]). *)

From Stdlib Require Import Ascii String Decimal DecimalString.
From stdpp Require Import base option list gmap strings fin_maps.

(** ** JavaScript string methods *)

Module Js.

Definition is_upper (c : ascii) : bool :=
  let n := nat_of_ascii c in (65 <=? n)%nat && (n <=? 90)%nat.

Definition lower_ascii (c : ascii) : ascii :=
  if is_upper c then ascii_of_nat (nat_of_ascii c + 32) else c.

(** [s.toLowerCase()] *)
Fixpoint toLowerCase (s : string) : string :=
  match s with
  | "" => ""
  | String c s' => String (lower_ascii c) (toLowerCase s')
  end.

(** [s.startsWith(p)] *)
Definition startsWith (s p : string) : bool := String.prefix p s.

(** [s.endsWith(p)]: some suffix of [s] is [p]. *)
Fixpoint endsWith (s p : string) : bool :=
  bool_decide (s = p) ||
  match s with
  | "" => false
  | String _ s' => endsWith s' p
  end.

(** [s.slice(1)] *)
Definition slice1 (s : string) : string :=
  match s with
  | "" => ""
  | String _ s' => s'
  end.

(** [s.includes(p)] *)
Fixpoint includes (s p : string) : bool :=
  String.prefix p s ||
  match s with
  | "" => false
  | String _ s' => includes s' p
  end.

(** [s.split(sep)] for a one-character separator. *)
Fixpoint split (sep : ascii) (s : string) : list string :=
  match s with
  | "" => [""]
  | String c s' =>
      if Ascii.eqb c sep then "" :: split sep s'
      else match split sep s' with
           | [] => [String c ""]
           | seg :: segs => String c seg :: segs
           end
  end.

(** [l.join(sep)] *)
Fixpoint join (sep : string) (l : list string) : string :=
  match l with
  | [] => ""
  | [s] => s
  | s :: l' => s +:+ sep +:+ join sep l'
  end.

Fixpoint skip (n : nat) (s : string) : string :=
  match n, s with
  | O, _ => s
  | S n', String _ s' => skip n' s'
  | S _, "" => ""
  end.

(** [s.replace(pat, rep)] with a string pattern: the first occurrence
    only. *)
Fixpoint replace (s pat rep : string) : string :=
  if String.prefix pat s then rep +:+ skip (String.length pat) s
  else match s with
       | "" => ""
       | String c s' => String c (replace s' pat rep)
       end.

(** [query.replace(/[*]/g, ".*")] *)
Fixpoint replace_stars (s : string) : string :=
  match s with
  | "" => ""
  | String c s' =>
      if Ascii.eqb c "*" then ".*" +:+ replace_stars s'
      else String c (replace_stars s')
  end.

(** [l.slice(start, stop)] on arrays, for in-range non-negative bounds. *)
Definition slice {A} (start stop : nat) (l : list A) : list A :=
  take (stop - start) (drop start l).

(** A number inside a template literal. *)
Definition of_nat (n : nat) : string :=
  NilZero.string_of_uint (Nat.to_uint n).

End Js.

(** ** Node's [path] module, POSIX flavour *)

Module path.

Definition sep : ascii := "/"%char.

Definition isAbsolute (p : string) : bool := Js.startsWith p "/".

(** The segment pass of [normalizeString]: empty and "." segments are
    dropped, ".." removes the segment before it unless that one is ".."
    as well; above the top it is kept only when [allowAboveRoot].  [acc]
    holds the segments kept so far, last first. *)
Fixpoint normalizeSegments (allowAboveRoot : bool) (acc segs : list string)
  : list string :=
  match segs with
  | [] => rev acc
  | seg :: segs' =>
      if decide (seg = "" ∨ seg = ".") then
        normalizeSegments allowAboveRoot acc segs'
      else if decide (seg = "..") then
        match acc with
        | last :: acc' =>
            if decide (last = "..") then
              normalizeSegments allowAboveRoot
                (if allowAboveRoot then ".." :: acc else acc) segs'
            else normalizeSegments allowAboveRoot acc' segs'
        | [] =>
            normalizeSegments allowAboveRoot
              (if allowAboveRoot then [".."] else []) segs'
        end
      else normalizeSegments allowAboveRoot (seg :: acc) segs'
  end.

Definition normalizeString (p : string) (allowAboveRoot : bool) : string :=
  Js.join "/" (normalizeSegments allowAboveRoot [] (Js.split sep p)).

Definition normalize (p : string) : string :=
  if decide (p = "") then "." else
  let isAbs := isAbsolute p in
  let trailingSeparator := Js.endsWith p "/" in
  let p' := normalizeString p (negb isAbs) in
  if decide (p' = "") then
    if isAbs then "/" else if trailingSeparator then "./" else "."
  else
    let p'' := if trailingSeparator then p' +:+ "/" else p' in
    if isAbs then "/" +:+ p'' else p''.

(** The right-to-left loop of [resolve]: arguments are prepended until
    the path built so far is absolute; [cwd] is the last resort. *)
Fixpoint resolve_loop (rev_args : list string) (cwd resolvedPath : string)
  : string * bool :=
  match rev_args with
  | [] => (cwd +:+ "/" +:+ resolvedPath, isAbsolute cwd)
  | p :: rest =>
      if decide (p = "") then resolve_loop rest cwd resolvedPath
      else if isAbsolute p then (p +:+ "/" +:+ resolvedPath, true)
      else resolve_loop rest cwd (p +:+ "/" +:+ resolvedPath)
  end.

Definition resolve (cwd : string) (args : list string) : string :=
  let '(resolvedPath, resolvedAbsolute) := resolve_loop (rev args) cwd "" in
  let resolvedPath' := normalizeString resolvedPath (negb resolvedAbsolute) in
  if resolvedAbsolute then "/" +:+ resolvedPath'
  else if decide (resolvedPath' = "") then "." else resolvedPath'.

Definition join (args : list string) : string :=
  match filter (λ a, a ≠ "") args with
  | [] => "."
  | parts => normalize (Js.join "/" parts)
  end.

Definition is_slash (c : ascii) : bool := Ascii.eqb c "/".

Fixpoint drop_while (f : ascii → bool) (l : list ascii) : list ascii :=
  match l with
  | [] => []
  | c :: l' => if f c then drop_while f l' else l
  end.

(** [dirname]: scanning from the end and never looking at index 0, skip
    the trailing separators, then the last segment; the separator found
    there ends the result. *)
Definition dirname (p : string) : string :=
  match list_ascii_of_string p with
  | [] => "."
  | c0 :: body =>
      let hasRoot := is_slash c0 in
      let r1 := drop_while is_slash (rev body) in
      let r2 := drop_while (λ c, negb (is_slash c)) r1 in
      match r2 with
      | [] => if hasRoot then "/" else "."
      | _ :: r3 =>
          if hasRoot && bool_decide (r3 = []) then "//"
          else string_of_list_ascii (c0 :: rev r3)
      end
  end.

End path.

(** The line feed of the source's "\n". *)
Definition LF : string := String (ascii_of_nat 10) "".

(** ** Errors, outcomes and the monad of the [async] functions *)

(** The errors the program can see.  The first five are the [Error]s
    thrown by [validatePath], in the order of its [throw] statements; the
    next four are thrown by the request handler; [IoError] is a rejection
    of an [fs] call (the program never looks at the errno, so it is not
    kept). *)
Inductive error :=
  | HiddenPathDenied
  | OutsideVault (absolute : string) (dirs : list string)
  | SymlinkEscape
  | ParentOutsideVault
  | ParentMissing (parentDir : string)
  | WriteDisabled
  | ExtensionRequired
  | InvalidArguments (tool : string)
  | UnknownTool (tool : string)
  | IoError (syscall path : string).

Global Instance error_eq_dec : EqDecision error.
Proof. solve_decision. Defined.

(** [error.message].  (The schema's own text after "Invalid arguments
    for ..." and the errno of a failed [fs] call are not modelled: such
    a call is reported as ENOENT.) *)
Definition message (e : error) : string :=
  match e with
  | HiddenPathDenied => "Access denied - hidden files/directories not allowed"
  | OutsideVault absolute dirs =>
      "Access denied - path outside allowed directories: " +:+ absolute +:+
      " not in " +:+ Js.join ", " dirs
  | SymlinkEscape =>
      "Access denied - symlink target outside allowed directories"
  | ParentOutsideVault =>
      "Access denied - parent directory outside allowed directories"
  | ParentMissing parentDir =>
      "Parent directory does not exist: " +:+ parentDir
  | WriteDisabled =>
      "Write operations are disabled. Start the server with --enable-write to enable them."
  | ExtensionRequired => "Note path must end with .md extension"
  | InvalidArguments tool => "Invalid arguments for " +:+ tool
  | UnknownTool tool => "Unknown tool: " +:+ tool
  | IoError syscall p => "ENOENT: no such file or directory, " +:+ syscall +:+
      " '" +:+ p +:+ "'"
  end.

(** What running a piece of the program gives: a value, a thrown error,
    or [OutOfFuel] when the recursion budget of the model is used up
    (this is not an exception of the program: no [catch] sees it). *)
Inductive outcome (A : Type) :=
  | Ok (a : A)
  | Throw (e : error)
  | OutOfFuel.
Arguments Ok {A} a.
Arguments Throw {A} e.
Arguments OutOfFuel {A}.

(** A computation over a mutable state [S]. *)
Definition M (S A : Type) : Type := S → outcome A * S.

Definition ret {S A} (a : A) : M S A := λ s, (Ok a, s).

Definition throw {S A} (e : error) : M S A := λ s, (Throw e, s).

Definition bind {S A B} (m : M S A) (k : A → M S B) : M S B :=
  λ s, match m s with
       | (Ok a, s') => k a s'
       | (Throw e, s') => (Throw e, s')
       | (OutOfFuel, s') => (OutOfFuel, s')
       end.

(** [try { m } catch (e) { h e }]: what [m] did to the state stays. *)
Definition try_catch {S A} (m : M S A) (h : error → M S A) : M S A :=
  λ s, match m s with
       | (Throw e, s') => h e s'
       | r => r
       end.

Notation "'let!' x ':=' m 'in' k" := (bind m (λ x, k))
  (at level 10, x pattern, m at level 100, k at level 200,
   format "'[v' 'let!'  x  ':='  m  'in' '/' k ']'").

(** ** The file system *)

Inductive node :=
  | File (content : string)
  | Dir
  | Symlink (target : string).

Global Instance node_eq_dec : EqDecision node.
Proof. solve_decision. Defined.

(** A disk maps the resolved location of an entry, as the list of its
    components below "/", to the entry.  The root [[]] is a directory. *)
Abbreviation disk := (gmap (list string) node).

Inductive syscall :=
  | Realpath (p : string)
  | Readdir (p : string)
  | ReadFile (p : string)
  | WriteFile (p content : string)
  | Access (p : string)
  | Mkdir (p : string).

Global Instance syscall_eq_dec : EqDecision syscall.
Proof. solve_decision. Defined.

Record world := World { w_disk : disk; w_trace : list syscall }.

(** [fs.Dirent], as [readdir] with [withFileTypes] returns it. *)
Record Dirent := { name : string; isDirectory : bool }.

Module Fs.

(** The kernel follows at most this many links in one resolution. *)
Definition MAXSYMLINKS : nat := 40.

Definition segments (p : string) : list string :=
  filter (λ seg, seg ≠ "") (Js.split path.sep p).

Definition render (r : list string) : string := "/" +:+ Js.join "/" r.

Definition node_at (d : disk) (r : list string) : option node :=
  if decide (r = []) then Some Dir else d !! r.

(** Path resolution from the resolved directory [cur] along [comps].
    A link restarts the walk on its target followed by what is left. *)
Fixpoint walk (links : nat) (d : disk) : list string → list string →
                                         option (list string) :=
  fix go (cur comps : list string) : option (list string) :=
    match comps with
    | [] => Some cur
    | c :: rest =>
        match node_at d cur with
        | Some Dir =>
            if decide (c = ".") then go cur rest
            else if decide (c = "..") then go (removelast cur) rest
            else
              match d !! (cur ++ [c]) with
              | None => None
              | Some (Symlink target) =>
                  match links with
                  | O => None
                  | S links' =>
                      walk links' d
                        (if path.isAbsolute target then [] else cur)
                        (segments target ++ rest)
                  end
              | Some _ => go (cur ++ [c]) rest
              end
        | _ => None
        end
    end.

Section WithCwd.
Variable cwd : string.

Definition resolve (d : disk) (p : string) : option (list string) :=
  walk MAXSYMLINKS d []
    (if path.isAbsolute p then segments p else segments cwd ++ segments p).

Definition log (c : syscall) : M world () :=
  λ w, (Ok (), World (w_disk w) (w_trace w ++ [c])).

Definition on_disk {A} (f : disk → outcome A) : M world A :=
  λ w, (f (w_disk w), w).

Definition set_disk (d : disk) : M world () :=
  λ w, (Ok (), World d (w_trace w)).

(** [fs.realpath(p)] *)
Definition realpath (p : string) : M world string :=
  let! _ := log (Realpath p) in
  on_disk (λ d,
    match resolve d p with
    | Some r => Ok (render r)
    | None => Throw (IoError "realpath" p)
    end).

(** The names a directory listing shows: not empty, not "." or "..",
    and without a separator. *)
Definition valid_name (n : string) : Prop :=
  n ≠ "" ∧ n ≠ "." ∧ n ≠ ".." ∧ Js.split path.sep n = [n].

(** The name of [k] inside the directory [r], when [k] is an entry of
    [r] that a directory listing shows. *)
Definition entry_name (r k : list string) : option string :=
  match reverse k with
  | n :: rparent =>
      if decide (reverse rparent = r ∧ valid_name n)
      then Some n else None
  | [] => None
  end.

Definition entries (d : disk) (r : list string) : list Dirent :=
  omap (λ kn : list string * node,
          n ← entry_name r kn.1;
          Some {| name := n; isDirectory := bool_decide (kn.2 = Dir) |})
       (map_to_list d).

(** [fs.readdir(p, { withFileTypes: true })] *)
Definition readdir (p : string) : M world (list Dirent) :=
  let! _ := log (Readdir p) in
  on_disk (λ d,
    match resolve d p with
    | Some r =>
        match node_at d r with
        | Some Dir => Ok (entries d r)
        | _ => Throw (IoError "scandir" p)
        end
    | None => Throw (IoError "scandir" p)
    end).

(** [fs.readFile(p, "utf-8")] *)
Definition readFile (p : string) : M world string :=
  let! _ := log (ReadFile p) in
  on_disk (λ d,
    match resolve d p with
    | Some r =>
        match d !! r with
        | Some (File content) => Ok content
        | _ => Throw (IoError "read" p)
        end
    | None => Throw (IoError "open" p)
    end).

(** [fs.writeFile(p, content, "utf-8")]: an existing file is
    overwritten; a missing one is created when its directory
    resolves.  (Creating a file through a dangling link is left out:
    it is reported as an error.) *)
Definition writeFile (p content : string) : M world () :=
  let! _ := log (WriteFile p content) in
  λ w,
    let d := w_disk w in
    match resolve d p with
    | Some r =>
        match d !! r with
        | Some (File _) => set_disk (<[r := File content]> d) w
        | _ => (Throw (IoError "open" p), w)
        end
    | None =>
        match reverse (segments p) with
        | base :: _ =>
            match resolve d (path.dirname p) with
            | Some rp =>
                match node_at d rp, d !! (rp ++ [base]) with
                | Some Dir, None =>
                    set_disk (<[rp ++ [base] := File content]> d) w
                | _, _ => (Throw (IoError "open" p), w)
                end
            | None => (Throw (IoError "open" p), w)
            end
        | [] => (Throw (IoError "open" p), w)
        end
    end.

(** [fs.access(p)] *)
Definition access (p : string) : M world () :=
  let! _ := log (Access p) in
  on_disk (λ d,
    match resolve d p with
    | Some _ => Ok ()
    | None => Throw (IoError "access" p)
    end).

(** [mkdir -p] below the resolved directory [cur]. *)
Fixpoint mkdir_from (d : disk) (cur comps : list string) : option disk :=
  match comps with
  | [] => Some d
  | c :: rest =>
      if decide (c = ".") then mkdir_from d cur rest
      else if decide (c = "..") then mkdir_from d (removelast cur) rest
      else
        match d !! (cur ++ [c]) with
        | None => mkdir_from (<[cur ++ [c] := Dir]> d) (cur ++ [c]) rest
        | Some Dir => mkdir_from d (cur ++ [c]) rest
        | Some (File _) => None
        | Some (Symlink _) =>
            match walk MAXSYMLINKS d cur [c] with
            | Some r =>
                match node_at d r with
                | Some Dir => mkdir_from d r rest
                | _ => None
                end
            | None => None
            end
        end
  end.

(** [fs.mkdir(p, { recursive: true })] *)
Definition mkdir (p : string) : M world () :=
  let! _ := log (Mkdir p) in
  λ w,
    match mkdir_from (w_disk w) []
            (if path.isAbsolute p then segments p
             else segments cwd ++ segments p) with
    | Some d' => set_disk d' w
    | None => (Throw (IoError "mkdir" p), w)
    end.

End WithCwd.

End Fs.

(** ** The program *)

Record ServerConfig := { vaultPath : string; enableWrite : bool }.

(** What the process is started with: [os.homedir()], [process.cwd()],
    the parsed command line, and the regular expression engine:
    [regexp_test pattern s] is [new RegExp(pattern, "i").test(s)], [None]
    when the constructor throws a [SyntaxError]. *)
Record Process := {
  homedir : string;
  cwd : string;
  config : ServerConfig;
  regexp_test : string → string → option bool;
}.

(** Maximum number of search results to return *)
Definition SEARCH_LIMIT : nat := 200.

(** Normalize all paths consistently *)
Definition normalizePath (p : string) : string :=
  Js.toLowerCase (path.normalize p).

Inductive update_mode := replace | append | prepend.

Global Instance update_mode_eq_dec : EqDecision update_mode.
Proof. solve_decision. Defined.

(** A tool call: the tool's name and its arguments.  The arguments are
    kept in the shape the schemas parse them to; [safeParse] of a tool's
    schema succeeds on the arguments of that tool's shape only. *)
Inductive arguments :=
  | ReadNotesArgs (paths : list string)
  | SearchNotesArgs (query : string)
  | WriteNoteArgs (path content : string) (createDirectories : bool)
  | UpdateNoteArgs (path content : string) (mode : update_mode)
  | OtherArgs.

Record request := { tool : string; args : arguments }.

(** The reply of the request handler: the text of its single content
    item and the [isError] flag. *)
Record reply := { text : string; isError : bool }.

Section Server.
Variable proc : Process.

Definition expandHome (filepath : string) : string :=
  if Js.startsWith filepath "~/" || bool_decide (filepath = "~")
  then path.join [homedir proc; Js.slice1 filepath]
  else filepath.

(** Store allowed directories in normalized form *)
Definition vaultDirectories : list string :=
  [normalizePath (path.resolve (cwd proc)
                    [expandHome (vaultPath (config proc))])].

(** [vaultDirectories[0]] (the array literal has one element). *)
Definition vaultDirectories0 : string := default "" (head vaultDirectories).

(** [vaultDirectories.some((dir) => p.startsWith(dir))] *)
Definition inAllowedDirectories (p : string) : bool :=
  existsb (λ dir, Js.startsWith p dir) vaultDirectories.

(** [path.isAbsolute(expandedPath) ? path.resolve(expandedPath)
    : path.resolve(process.cwd(), expandedPath)] *)
Definition absolute_of (requestedPath : string) : string :=
  let expandedPath := expandHome requestedPath in
  if path.isAbsolute expandedPath
  then path.resolve (cwd proc) [expandedPath]
  else path.resolve (cwd proc) [cwd proc; expandedPath].

(** Security utilities *)
Definition validatePath (requestedPath : string) : M world string :=
  (* Ignore hidden files/directories starting with "." *)
  let pathParts := Js.split path.sep requestedPath in
  if existsb (λ part, Js.startsWith part ".") pathParts then
    throw HiddenPathDenied
  else
  let absolute := absolute_of requestedPath in
  let normalizedRequested := normalizePath absolute in
  (* Check if path is within allowed directories *)
  let isAllowed := inAllowedDirectories normalizedRequested in
  if negb isAllowed then throw (OutsideVault absolute vaultDirectories)
  else
  (* Handle symlinks by checking their real path *)
  try_catch
    (let! realPath := Fs.realpath (cwd proc) absolute in
     let normalizedReal := normalizePath realPath in
     let isRealPathAllowed := inAllowedDirectories normalizedReal in
     if negb isRealPathAllowed then throw SymlinkEscape
     else ret realPath)
    (λ _error,
       (* For new files that don't exist yet, verify parent directory *)
       let parentDir := path.dirname absolute in
       try_catch
         (let! realParentPath := Fs.realpath (cwd proc) parentDir in
          let normalizedParent := normalizePath realParentPath in
          let isParentAllowed := inAllowedDirectories normalizedParent in
          if negb isParentAllowed then throw ParentOutsideVault
          else ret absolute)
         (λ _, throw (ParentMissing parentDir))).

(** Ensure directory exists *)
Definition ensureDirectory (dirPath : string) : M world () :=
  try_catch (Fs.access (cwd proc) dirPath)
            (λ _, Fs.mkdir (cwd proc) dirPath).

(** The state of one [searchNotes] call: the world and the [results]
    array that the inner [search] pushes to. *)
Definition in_world {A} (m : M world A) : M (world * list string) A :=
  λ s, let '(r, w') := m s.1 in (r, (w', s.2)).

Definition push (x : string) : M (world * list string) () :=
  λ s, (Ok (), (s.1, s.2 ++ [x])).

(** The match test of [search]: the substring test, or else the query
    as a regular expression (an invalid one is ignored). *)
Definition matches (query name : string) : bool :=
  let matches := Js.includes (Js.toLowerCase name) (Js.toLowerCase query) in
  matches ||
    match regexp_test proc (Js.replace_stars query) name with
    | Some b => b
    | None => false
    end.

(** The body of the [for] loop of [search] for one [entry]; [descend]
    is the recursive call [search(basePath, _)]. *)
Definition search_entry (query : string)
    (descend : string → M (world * list string) ())
    (basePath currentPath : string) (entry : Dirent)
  : M (world * list string) () :=
  let fullPath := path.join [currentPath; name entry] in
  try_catch
    ((* Validate each path before processing *)
     let! _ := in_world (validatePath fullPath) in
     let! _ :=
       if Js.endsWith (name entry) ".md" && matches query (name entry)
       then (* Turn into relative path *)
            push (Js.replace fullPath basePath "")
       else ret () in
     if isDirectory entry then descend fullPath else ret ())
    ((* Skip invalid paths during search *)
     λ _, ret ()).

Fixpoint search_entries (query : string)
    (descend : string → M (world * list string) ())
    (basePath currentPath : string) (entries : list Dirent)
  : M (world * list string) () :=
  match entries with
  | [] => ret ()
  | entry :: entries' =>
      let! _ := search_entry query descend basePath currentPath entry in
      search_entries query descend basePath currentPath entries'
  end.

(** The inner [search] of [searchNotes]; [fuel] bounds the depth of
    the recursion. *)
Fixpoint search (fuel : nat) (query basePath currentPath : string)
  : M (world * list string) () :=
  match fuel with
  | O => λ s, (OutOfFuel, s)
  | S fuel' =>
      let! entries := in_world (Fs.readdir (cwd proc) currentPath) in
      search_entries query (search fuel' query basePath)
        basePath currentPath entries
  end.

(** [Promise.all(dirs.map((dir) => search(dir, dir)))] *)
Fixpoint search_all (fuel : nat) (query : string) (dirs : list string)
  : M (world * list string) () :=
  match dirs with
  | [] => ret ()
  | dir :: dirs' =>
      let! _ := search fuel query dir dir in
      search_all fuel query dirs'
  end.

Definition searchNotes (fuel : nat) (query : string)
  : M world (list string) :=
  λ w, let '(r, (w', results)) :=
         search_all fuel query vaultDirectories (w, []) in
       (match r with
        | Ok _ => Ok results
        | Throw e => Throw e
        | OutOfFuel => OutOfFuel
        end, w').

(** One element of the [paths.map] of [read_notes]. *)
Definition read_note (filePath : string) : M world string :=
  try_catch
    (let! validPath :=
       validatePath (path.join [vaultDirectories0; filePath]) in
     let! content := Fs.readFile (cwd proc) validPath in
     ret (filePath +:+ ":" +:+ LF +:+ content +:+ LF))
    (λ error, ret (filePath +:+ ": Error - " +:+ message error)).

Fixpoint read_all (paths : list string) : M world (list string) :=
  match paths with
  | [] => ret []
  | filePath :: paths' =>
      let! r := read_note filePath in
      let! rs := read_all paths' in
      ret (r :: rs)
  end.

(** The text of the [search_notes] reply. *)
Definition search_text (results : list string) : string :=
  let limitedResults := Js.slice 0 SEARCH_LIMIT results in
  (if (0 <? length limitedResults)%nat
   then Js.join LF limitedResults
   else "No matches found") +:+
  (if (SEARCH_LIMIT <? length results)%nat
   then LF +:+ LF +:+ "... " +:+
        Js.of_nat (length results - SEARCH_LIMIT) +:+
        " more results not shown."
   else "").

(** The [switch] of the request handler. *)
Definition dispatch (fuel : nat) (req : request) : M world string :=
  let name := tool req in
  (* Check write permission for write operations *)
  if (bool_decide (name = "write_note") ||
      bool_decide (name = "update_note")) &&
     negb (enableWrite (config proc))
  then throw WriteDisabled
  else if decide (name = "read_notes") then
    match args req with
    | ReadNotesArgs paths =>
        let! results := read_all paths in
        ret (Js.join (LF +:+ "---" +:+ LF) results)
    | _ => throw (InvalidArguments name)
    end
  else if decide (name = "search_notes") then
    match args req with
    | SearchNotesArgs query =>
        let! results := searchNotes fuel query in
        ret (search_text results)
    | _ => throw (InvalidArguments name)
    end
  else if decide (name = "write_note") then
    match args req with
    | WriteNoteArgs path content createDirectories =>
        if negb (Js.endsWith path ".md") then throw ExtensionRequired
        else
        let fullPath := path.join [vaultDirectories0; path] in
        let! validPath := validatePath fullPath in
        let! _ :=
          if createDirectories
          then ensureDirectory (path.dirname validPath)
          else ret () in
        let! _ := Fs.writeFile (cwd proc) validPath content in
        ret ("Successfully wrote note to " +:+ path)
    | _ => throw (InvalidArguments name)
    end
  else if decide (name = "update_note") then
    match args req with
    | UpdateNoteArgs path content mode =>
        if negb (Js.endsWith path ".md") then throw ExtensionRequired
        else
        let fullPath := path.join [vaultDirectories0; path] in
        let! validPath := validatePath fullPath in
        let! finalContent :=
          if decide (mode ≠ replace) then
            let! existingContent := Fs.readFile (cwd proc) validPath in
            ret (if decide (mode = append)
                 then existingContent +:+ LF +:+ content
                 else content +:+ LF +:+ existingContent)
          else ret content in
        let! _ := Fs.writeFile (cwd proc) validPath finalContent in
        ret ("Successfully updated note at " +:+ path)
    | _ => throw (InvalidArguments name)
    end
  else throw (UnknownTool name).

(** The [CallToolRequestSchema] handler: whatever is thrown becomes an
    error reply. *)
Definition callTool (fuel : nat) (req : request) : M world reply :=
  try_catch
    (let! t := dispatch fuel req in
     ret {| text := t; isError := false |})
    (λ error,
       ret {| text := "Error: " +:+ message error; isError := true |}).

End Server.

(** ** Start-up and the list of tools *)

(** The loop of [parseArgs] over [process.argv.slice(2)]. *)
Fixpoint parseArgs_loop (args : list string) (config : ServerConfig)
  : ServerConfig :=
  match args with
  | [] => config
  | arg :: args' =>
      if bool_decide (arg = "--enable-write") || bool_decide (arg = "-w")
      then parseArgs_loop args'
             {| vaultPath := vaultPath config; enableWrite := true |}
      else if bool_decide (vaultPath config = "")
      then parseArgs_loop args'
             {| vaultPath := arg; enableWrite := enableWrite config |}
      else parseArgs_loop args' config
  end.

(** [parseArgs]; [None] is [process.exit(1)] after the usage message. *)
Definition parseArgs (args : list string) : option ServerConfig :=
  let config :=
    parseArgs_loop args {| vaultPath := ""; enableWrite := false |} in
  if bool_decide (vaultPath config = "") then None else Some config.

(** [fs.stat(p)]: the entry that [p] resolves to, links followed; the
    empty path names nothing. *)
Definition stat (cwd : string) (d : disk) (p : string) : option node :=
  if decide (p = "") then None
  else r ← Fs.resolve cwd d p; Fs.node_at d r.

(** Validate that directory exists and is accessible: [true] when the
    process goes on, [false] when it exits. *)
Definition startup (proc : Process) (d : disk) : bool :=
  match stat (cwd proc) d (vaultPath (config proc)) with
  | Some stats => bool_decide (stats = Dir)
  | None => false
  end.

Module Tool.
Record t := { name : string; description : string }.
End Tool.

(** The [ListToolsRequestSchema] handler (names and descriptions; the
    input schemas are left out). *)
Definition listTools (config : ServerConfig) : list Tool.t :=
  (* Base tools always available *)
  let tools :=
    [ {| Tool.name := "read_notes";
         Tool.description :=
           "Read the contents of multiple notes. Each note's content is returned with its " +:+
           "path as a reference. Failed reads for individual notes won't stop " +:+
           "the entire operation. Reading too many at once may result in an error." |};
      {| Tool.name := "search_notes";
         Tool.description :=
           "Searches for a note by its name. The search " +:+
           "is case-insensitive and matches partial names. " +:+
           "Queries can also be a valid regex. Returns paths of the notes " +:+
           "that match the query." |} ] in
  (* Add write tools only if enabled *)
  if enableWrite config then
    tools ++
    [ {| Tool.name := "write_note";
         Tool.description :=
           "Creates a new note or completely overwrites an existing note. " +:+
           "Can optionally create parent directories if they don't exist. " +:+
           "Path must end in .md extension." |};
      {| Tool.name := "update_note";
         Tool.description :=
           "Updates an existing note. Can replace entire content, append to end, " +:+
           "or prepend to beginning. Path must end in .md extension." |} ]
  else tools.

(** ** Vocabulary of the properties *)

Arguments Fs.resolve : simpl never.
Arguments Fs.render : simpl never.
Arguments Fs.readFile : simpl never.
Arguments Fs.readdir : simpl never.
Arguments Fs.writeFile : simpl never.
Arguments absolute_of : simpl never.
Arguments inAllowedDirectories : simpl never.
Arguments normalizePath : simpl never.
Arguments vaultDirectories : simpl never.
Arguments vaultDirectories0 : simpl never.
Arguments path.dirname : simpl never.
Arguments path.join : simpl never.

(** The test of the hidden-entry policy of [validatePath]. *)
Definition hidden (requestedPath : string) : bool :=
  existsb (λ part, Js.startsWith part ".") (Js.split path.sep requestedPath).

(** The prefix test of [validatePath] on the normalized form of [p]. *)
Definition allowed (proc : Process) (p : string) : bool :=
  inAllowedDirectories proc (normalizePath p).

(** [w] after the calls [t] into [fs]. *)
Definition traced (w : world) (t : list syscall) : world :=
  World (w_disk w) (w_trace w ++ t).

(** The [catch] branch of [validatePath]: the check of the parent. *)
Definition parent_check (proc : Process) (absolute : string) (w : world)
  : outcome string * world :=
  let parentDir := path.dirname absolute in
  (match Fs.resolve (cwd proc) (w_disk w) parentDir with
   | Some rp =>
       if allowed proc (Fs.render rp) then Ok absolute
       else Throw (ParentMissing parentDir)
   | None => Throw (ParentMissing parentDir)
   end, traced w [Realpath absolute; Realpath parentDir]).

(** [p] lies under the directory [dir]: component by component, not
    character by character. *)
Definition under (dir p : string) : Prop :=
  Fs.segments dir `prefix_of` Fs.segments p.

(** A computation that only reads the disk: its outcome and the calls it
    makes are a function of the disk alone. *)
Definition reader {A} (m : M world A) : Prop :=
  ∀ d, ∃ o t, ∀ tr, m (World d tr) = (o, World d (tr ++ t)).

(** The same for the computations of a search, which also push to the
    [results] array. *)
Definition collector {A} (m : M (world * list string) A) : Prop :=
  ∀ d, ∃ o t found, ∀ tr results,
    m (World d tr, results) = (o, (World d (tr ++ t), results ++ found)).

(** What path resolution sees of an entry: its kind and, for a link,
    its target, but not the content of a file. *)
Definition shape (n : option node) : option node :=
  match n with
  | Some (File _) => Some (File "")
  | _ => n
  end.

(** A name without a separator. *)
Definition slash_free (n : string) : Prop := Js.split path.sep n = [n].

(** An absolute path written as its components, each one a name that a
    directory listing can show. *)
Definition canonical (p : string) : Prop :=
  ∃ L, p = Fs.render L ∧ Forall Fs.valid_name L.

(** The length of the longest location on the disk. *)
Definition depth (d : disk) : nat :=
  max_list (length <$> (map_to_list d).*1).

(** ** Vocabulary of the further properties *)

(** The calls a search may make. *)
Definition listing_call (c : syscall) : Prop :=
  match c with
  | Realpath _ | Readdir _ => True
  | _ => False
  end.

(** The errors that come out of path validation and of [fs]. *)
Definition access_error (e : error) : Prop :=
  match e with
  | HiddenPathDenied | OutsideVault _ _ | ParentMissing _ | IoError _ _ => True
  | _ => False
  end.

(** The flags of the command line. *)
Definition write_flag (arg : string) : bool :=
  bool_decide (arg = "--enable-write") || bool_decide (arg = "-w").

(** The arguments that can become the vault path. *)
Definition positional (args : list string) : list string :=
  filter (λ arg, write_flag arg = false ∧ arg ≠ "") args.

(** The names of the tools that change notes. *)
Definition write_tool (name : string) : bool :=
  bool_decide (name = "write_note") || bool_decide (name = "update_note").

(** The reply for a thrown error. *)
Definition error_reply (e : error) : reply :=
  {| text := "Error: " +:+ message e; isError := true |}.

(** [m] only moves the state along [R], and when it does not end
    normally, what it ends with is in [E] ([None] is the recursion budget
    used up). *)
Definition within {S A} (R : relation S) (E : option error → Prop)
    (m : M S A) : Prop :=
  ∀ s, R s (m s).2 ∧
       match (m s).1 with
       | Ok _ => True
       | Throw e => E (Some e)
       | OutOfFuel => E None
       end.

(** The disk is the same. *)
Definition same_disk (w w' : world) : Prop := w_disk w' = w_disk w.

(** The disk is the same and only listing calls were made. *)
Definition listed_only (w w' : world) : Prop :=
  w_disk w' = w_disk w ∧
  ∃ t, w_trace w' = w_trace w ++ t ∧ Forall listing_call t.

(** The ways not to end normally: a thrown error in [P], and the budget
    used up when [budget] holds. *)
Definition failing (budget : Prop) (P : error → Prop) (o : option error)
  : Prop :=
  match o with
  | Some e => P e
  | None => budget
  end.

(** A relation on worlds, on the states of a search. *)
Definition on_world (R : relation world)
  : relation (world * list string) :=
  λ s s', R s.1 s'.1.

(** The denials of [validatePath]. *)
Definition denial (e : error) : Prop :=
  match e with
  | HiddenPathDenied | OutsideVault _ _ | ParentMissing _ => True
  | _ => False
  end.

(** The arguments have the shape of the tool's schema. *)
Definition well_shaped (name : string) (a : arguments) : bool :=
  match a with
  | ReadNotesArgs _ => bool_decide (name = "read_notes")
  | SearchNotesArgs _ => bool_decide (name = "search_notes")
  | WriteNoteArgs _ _ _ => bool_decide (name = "write_note")
  | UpdateNoteArgs _ _ _ => bool_decide (name = "update_note")
  | OtherArgs => false
  end.

(** The names the dispatcher knows. *)
Definition known_tools : list string :=
  ["read_notes"; "search_notes"; "write_note"; "update_note"].

(** What a tool call may do to one location of the disk: leave it, write
    a file where there was none or another file, or make a directory
    where there was nothing. *)
Definition kept (old new : option node) : Prop :=
  new = old ∨
  (∃ content, new = Some (File content) ∧
              (old = None ∨ ∃ content0, old = Some (File content0))) ∨
  (new = Some Dir ∧ old = None).

Definition grows (w w' : world) : Prop :=
  ∀ k, kept (w_disk w !! k) (w_disk w' !! k).

(** The errors a call of the tool [req] can end in. *)
Definition dispatch_error (proc : Process) (req : request) (e : error)
  : Prop :=
  match e with
  | WriteDisabled =>
      write_tool (tool req) = true ∧ enableWrite (config proc) = false
  | UnknownTool name => name = tool req ∧ tool req ∉ known_tools
  | InvalidArguments name =>
      name = tool req ∧ well_shaped (tool req) (args req) = false
  | ExtensionRequired => write_tool (tool req) = true
  | SymlinkEscape | ParentOutsideVault => False
  | HiddenPathDenied | OutsideVault _ _ | ParentMissing _ | IoError _ _ =>
      tool req ∈ known_tools
  end.

(** The note that the arguments of a write tool name. *)
Definition note_path (a : arguments) : option string :=
  match a with
  | WriteNoteArgs path _ _ | UpdateNoteArgs path _ _ => Some path
  | _ => None
  end.

(** A name that path resolution can see as a component. *)
Definition component (c : string) : Prop := c ≠ "" ∧ slash_free c.

(** [rr], last component first, is a location that resolution can end
    at: every component names an entry that is not a link, inside a
    directory. *)
Fixpoint settled_rev (d : disk) (rr : list string) : Prop :=
  match rr with
  | [] => True
  | c :: rr' =>
      Fs.valid_name c ∧
      Fs.node_at d (reverse rr') = Some Dir ∧
      (∃ nd, d !! (reverse rr' ++ [c]) = Some nd ∧ ∀ t, nd ≠ Symlink t) ∧
      settled_rev d rr'
  end.

Definition settled (d : disk) (r : list string) : Prop :=
  settled_rev d (reverse r).

(** The files a server may touch: a read or a write names a path that
    passes the prefix check. *)
Definition confined_call (proc : Process) (c : syscall) : Prop :=
  match c with
  | ReadFile p | WriteFile p _ => allowed proc p = true
  | _ => True
  end.

(** Only such calls were made. *)
Definition confined (proc : Process) (w w' : world) : Prop :=
  ∃ t, w_trace w' = w_trace w ++ t ∧ Forall (confined_call proc) t.

(** The separator that [replace] leaves in front of a result. *)
Definition lead (L0 : list string) : string :=
  if decide (L0 = []) then "" else "/".

(** What a search reports for the root [render L0] on the disk [d]: a
    name that ends in [.md], which joined to the root is the canonical
    path of an entry below the root that [validatePath] accepts. *)
Definition reported (proc : Process) (d : disk) (L0 : list string)
    (x : string) : Prop :=
  Js.endsWith x ".md" = true ∧
  ∃ M, Forall Fs.valid_name M ∧
       path.join [Fs.render L0; x] = Fs.render (L0 ++ M) ∧
       ∃ validPath, ∀ tr,
         (validatePath proc (Fs.render (L0 ++ M)) (World d tr)).1
           = Ok validPath.

(** On the disk [d], the search left the disk alone and added results
    in [Q]. *)
Definition reports (Q : string → Prop) (d : disk)
  : relation (world * list string) :=
  λ s s', w_disk s.1 = d →
          w_disk s'.1 = d ∧ ∃ found, s'.2 = s.2 ++ found ∧ Forall Q found.

(** ** Example processes and disks *)

(** An engine for the patterns without metacharacters, on which
    [RegExp.test] with the [i] flag is the case-insensitive substring
    test.  The examples use no other pattern. *)
Definition literal_regexp (pattern s : string) : option bool :=
  if forallb (λ c, let n := nat_of_ascii c in
                   (48 <=? n)%nat && (n <=? 57)%nat ||
                   (65 <=? n)%nat && (n <=? 90)%nat ||
                   (97 <=? n)%nat && (n <=? 122)%nat)
             (list_ascii_of_string pattern)
  then Some (Js.includes (Js.toLowerCase s) (Js.toLowerCase pattern))
  else None.

(** A server started as [mcp-obsidian /vault --enable-write]. *)
Definition vault_proc : Process :=
  {| homedir := "/home/user"; cwd := "/";
     config := {| vaultPath := "/vault"; enableWrite := true |};
     regexp_test := literal_regexp |}.

(** The vault holds [a/ok.md], [.hidden/secret.md] and [b/ok2.md];
    [/vaultX] is a directory next to the vault. *)
Definition vault_disk : disk :=
  list_to_map [
    (["vault"], Dir);
    (["vault"; "a"], Dir); (["vault"; "a"; "ok.md"], File "line1");
    (["vault"; ".hidden"], Dir);
    (["vault"; ".hidden"; "secret.md"], File "secret");
    (["vault"; "b"], Dir); (["vault"; "b"; "ok2.md"], File "two");
    (["etc"], Dir); (["etc"; "passwd"], File "root:x:0:0");
    (["tmp"], Dir);
    (["vaultX"], Dir); (["vaultX"; "note.md"], File "not in the vault")].

Definition vault_world : world := World vault_disk [].

(** The same disk with two links inside the vault: [link.md] to the file
    [/etc/passwd] and [out] to the directory [/tmp]. *)
Definition linked_disk : disk :=
  <[ ["vault"; "link.md"] := Symlink "/etc/passwd" ]>
    (<[ ["vault"; "out"] := Symlink "/tmp" ]> vault_disk).

Definition linked_world : world := World linked_disk [].

(** A server started as [mcp-obsidian /Vault] on a disk that tells
    [/Vault] from [/vault]. *)
Definition Vault_proc : Process :=
  {| homedir := "/home/user"; cwd := "/";
     config := {| vaultPath := "/Vault"; enableWrite := false |};
     regexp_test := literal_regexp |}.

Definition Vault_disk : disk :=
  list_to_map [(["Vault"], Dir); (["Vault"; "a.md"], File "note")].

Definition Vault_world : world := World Vault_disk [].

(** * Properties *)

(** ** Strings and paths *)

Section Strings.

(** [split] and [join] undo each other on names without a separator. *)
Lemma split_not_nil sep s : Js.split sep s ≠ [].
Proof.
  destruct s as [|c s]; cbn; [done|].
  destruct (Ascii.eqb c sep); [done|]. by destruct (Js.split sep s).
Qed.

Lemma string_app_nil (s : string) : "" +:+ s = s.
Proof. done. Qed.

Lemma string_app_cons c (a b : string) : String c a +:+ b = String c (a +:+ b).
Proof. done. Qed.

Lemma string_app_assoc (a b c : string) : (a +:+ b) +:+ c = a +:+ b +:+ c.
Proof.
  induction a as [|x a IH]; [done|].
  by rewrite !string_app_cons, IH.
Qed.

Lemma split_app sep a b :
  Js.split sep (a +:+ String sep b) = Js.split sep a ++ Js.split sep b.
Proof.
  induction a as [|c a IH].
  - rewrite string_app_nil. cbn. by rewrite Ascii.eqb_refl.
  - rewrite string_app_cons. cbn.
    destruct (Ascii.eqb c sep); [by rewrite IH|].
    rewrite IH. pose proof (split_not_nil sep a).
    by destruct (Js.split sep a).
Qed.

Lemma split_join L :
  L ≠ [] → Forall slash_free L →
  Js.split path.sep (Js.join "/" L) = L.
Proof.
  induction L as [|n L IH]; [done|]. intros _ HL.
  apply Forall_cons in HL as [Hn HL].
  destruct L as [|n' L]; [done|].
  change (Js.join "/" (n :: n' :: L))
    with (n +:+ String path.sep (Js.join "/" (n' :: L))).
  rewrite split_app, Hn, IH; done.
Qed.

Lemma join_snoc L n :
  Js.join "/" (L ++ [n]) =
  if decide (L = []) then n else Js.join "/" L +:+ String "/" n.
Proof.
  induction L as [|m L IH]; [done|].
  rewrite decide_False by done.
  destruct L as [|m' L]; [done|].
  change (Js.join "/" ((m :: m' :: L) ++ [n]))
    with (m +:+ String "/" (Js.join "/" ((m' :: L) ++ [n]))).
  rewrite IH, decide_False by done.
  change (Js.join "/" (m :: m' :: L))
    with (m +:+ String "/" (Js.join "/" (m' :: L))).
  by rewrite !string_app_assoc.
Qed.

Lemma valid_slash_free n : Fs.valid_name n → slash_free n.
Proof. by intros (_ & _ & _ & H). Qed.

(** Normalization keeps a list of valid names as it is. *)
Lemma normalizeSegments_valid b acc L :
  Forall Fs.valid_name L →
  path.normalizeSegments b acc L = rev acc ++ L.
Proof.
  intros HL. revert acc. induction HL as [|n L (Hn1 & Hn2 & Hn3 & _) HL IH];
    intros acc; cbn.
  - by rewrite app_nil_r.
  - rewrite decide_False by (intros [?|?]; done).
    rewrite decide_False by done.
    rewrite IH. cbn. by rewrite <- app_assoc.
Qed.

Lemma join_valid_not_empty L n :
  n ≠ "" → Js.join "/" (L ++ [n]) ≠ "".
Proof.
  intros Hn. rewrite join_snoc. case_decide; [done|].
  destruct (Js.join "/" L); done.
Qed.

Lemma string_app_length (x y : string) :
  String.length (x +:+ y) = String.length x + String.length y.
Proof.
  induction x as [|c x IH]; [done|].
  rewrite string_app_cons. cbn. by rewrite IH.
Qed.

(** A suffix no longer than [n] is a suffix of [a +:+ n] exactly when it
    is one of [n]. *)
Lemma endsWith_app a n p :
  String.length p ≤ String.length n → n ≠ "" →
  Js.endsWith (a +:+ n) p = Js.endsWith n p.
Proof.
  intros Hlen Hn. induction a as [|c a IH]; [done|].
  rewrite string_app_cons. cbn [Js.endsWith]. rewrite IH.
  rewrite bool_decide_eq_false_2; [done|].
  intros <-. cbn in Hlen. rewrite string_app_length in Hlen. lia.
Qed.

Lemma endsWith_slash_free n :
  slash_free n → n ≠ "" → Js.endsWith n "/" = false.
Proof.
  unfold slash_free. induction n as [|c n IH]; [done|]. cbn.
  intros Hs _. destruct (Ascii.eqb c path.sep) eqn:Hc.
  { pose proof (split_not_nil path.sep n) as Hnn.
    injection Hs as _ Hs. done. }
  apply Ascii.eqb_neq in Hc.
  rewrite bool_decide_eq_false_2 by (intros [= ? ?]; done).
  cbn. destruct n as [|c' n]; [done|].
  apply IH; [|done].
  destruct (Js.split path.sep (String c' n)) as [|h t]; simplify_eq/=; done.
Qed.

Lemma isAbsolute_slash (s : string) : path.isAbsolute ("/" +:+ s) = true.
Proof. by destruct s. Qed.

Lemma isAbsolute_render L : path.isAbsolute (Fs.render L) = true.
Proof. apply isAbsolute_slash. Qed.

Lemma join_pair (a n : string) : Js.join "/" [a; n] = a +:+ String "/" n.
Proof. done. Qed.

(** Joining a canonical directory and a valid name appends the name. *)
Lemma join_canonical L n :
  Forall Fs.valid_name L → Fs.valid_name n →
  path.join [Fs.render L; n] = Fs.render (L ++ [n]).
Proof.
  intros HL Hn. pose proof Hn as (Hn1 & Hn2 & Hn3 & Hn4).
  unfold path.join, Fs.render.
  rewrite !filter_cons_True by done. rewrite filter_nil.
  rewrite join_pair.
  unfold path.normalize.
  rewrite decide_False by done.
  rewrite string_app_assoc, isAbsolute_slash.
  cbn [negb].
  assert (path.normalizeString ("/" +:+ Js.join "/" L +:+ String "/" n) false
          = Js.join "/" (L ++ [n])) as ->.
  { unfold path.normalizeString, path.sep in *.
    rewrite <- string_app_assoc, split_app, Hn4.
    change ("/" +:+ Js.join "/" L) with (String "/" (Js.join "/" L)).
    cbn [Js.split]. rewrite Ascii.eqb_refl.
    cbn [app path.normalizeSegments]. rewrite decide_True by (by left).
    destruct L as [|m L].
    - cbn. rewrite decide_True by (by left).
      rewrite decide_False by (intros [?|?]; done).
      by rewrite decide_False by done.
    - rewrite split_join;
        [|done|by eapply Forall_impl; [|apply valid_slash_free]].
      rewrite normalizeSegments_valid; [done|].
      apply Forall_app. split; [done|by constructor]. }
  rewrite decide_False by (by apply join_valid_not_empty).
  rewrite <- string_app_assoc.
  rewrite (endsWith_app _ (String "/" n)); [|cbn; lia|done].
  cbn [Js.endsWith]. rewrite bool_decide_eq_false_2; cycle 1.
  { intros [= ->]. done. }
  cbn [orb]. by rewrite endsWith_slash_free.
Qed.

Lemma filter_valid L :
  Forall Fs.valid_name L → filter (λ seg : string, seg ≠ "") L = L.
Proof.
  induction 1 as [|n L (Hn & _) _ IH]; [done|].
  by rewrite filter_cons_True, IH.
Qed.

Lemma segments_render L :
  Forall Fs.valid_name L → Fs.segments (Fs.render L) = L.
Proof.
  intros HL. unfold Fs.segments, Fs.render.
  change ("/" +:+ Js.join "/" L) with (String path.sep (Js.join "/" L)).
  cbn [Js.split]. rewrite Ascii.eqb_refl.
  rewrite filter_cons_False by (by intros ?).
  destruct L as [|m L]; [done|].
  rewrite split_join; [|done|by eapply Forall_impl; [|apply valid_slash_free]].
  by apply filter_valid.
Qed.

(** The Root Set entry is canonical: [path.resolve] gives an absolute
    path of valid names, which [path.normalize] leaves alone and
    [toLowerCase] keeps canonical. *)
Lemma split_slash_free p : Forall slash_free (Js.split path.sep p).
Proof.
  unfold slash_free, path.sep. induction p as [|c p IH]; cbn.
  - by repeat constructor.
  - destruct (Ascii.eqb c "/") eqn:Hc; [by constructor|].
    destruct (Js.split "/" p) as [|h t];
      [constructor; [cbn; by rewrite Hc|constructor]|].
    apply Forall_cons in IH as [Hh Ht]. constructor; [|done].
    cbn. by rewrite Hc, Hh.
Qed.

Lemma normalizeSegments_false_valid segs :
  Forall slash_free segs →
  ∀ acc, Forall Fs.valid_name acc →
         Forall Fs.valid_name (path.normalizeSegments false acc segs).
Proof.
  induction 1 as [|seg segs Hs _ IH]; intros acc Hacc; cbn.
  - by apply Forall_rev.
  - case_decide; [by apply IH|].
    case_decide.
    + destruct acc as [|last acc']; [by apply IH|].
      case_decide; apply IH; [done|].
      by apply Forall_cons in Hacc as [_ ?].
    + apply IH. constructor; [|done]. unfold Fs.valid_name. naive_solver.
Qed.

Lemma resolve_canonical cwd p :
  path.isAbsolute cwd = true → canonical (path.resolve cwd [p]).
Proof.
  intros Hcwd. unfold path.resolve.
  destruct (path.resolve_loop (rev [p]) cwd "") as [P b] eqn:E.
  assert (b = true) as ->.
  { cbn in E. case_decide; [|destruct (path.isAbsolute p)];
      cbn in E; rewrite ?Hcwd in E; congruence. }
  cbn [negb]. eexists. split; [reflexivity|].
  apply normalizeSegments_false_valid; [apply split_slash_free|constructor].
Qed.

Lemma normalize_render L :
  Forall Fs.valid_name L → path.normalize (Fs.render L) = Fs.render L.
Proof.
  intros HL. unfold path.normalize.
  rewrite decide_False by done.
  rewrite isAbsolute_render. cbn [negb].
  destruct (decide (L = [])) as [->|Hne]; [done|].
  assert (path.normalizeString (Fs.render L) false = Js.join "/" L) as ->.
  { unfold path.normalizeString, Fs.render, path.sep.
    change ("/" +:+ Js.join "/" L) with (String "/" (Js.join "/" L)).
    cbn [Js.split]. rewrite Ascii.eqb_refl.
    cbn [path.normalizeSegments]. rewrite decide_True by (by left).
    rewrite split_join;
      [|done|by eapply Forall_impl; [|apply valid_slash_free]].
    by rewrite normalizeSegments_valid. }
  destruct (exists_last Hne) as (L' & n & ->).
  apply Forall_app in HL as [HL' [Hn _]%Forall_cons].
  pose proof Hn as (Hn1 & Hn2 & Hn3 & Hn4).
  rewrite decide_False by (by apply join_valid_not_empty).
  assert (Js.endsWith (Fs.render (L' ++ [n])) "/" = false) as ->; [|done].
  unfold Fs.render. rewrite join_snoc. case_decide.
  - change ("/" +:+ n) with (String "/" n).
    rewrite <- (string_app_nil (String "/" n)).
    rewrite endsWith_app; [|cbn; lia|done].
    cbn [Js.endsWith]. rewrite bool_decide_eq_false_2 by (by intros [= ->]).
    by rewrite endsWith_slash_free.
  - rewrite <- string_app_assoc.
    rewrite endsWith_app; [|cbn; lia|done].
    cbn [Js.endsWith]. rewrite bool_decide_eq_false_2 by (by intros [= ->]).
    by rewrite endsWith_slash_free.
Qed.

(** Case folding maps no other character to "." or to "/". *)
Lemma lower_ascii_dot c : Js.lower_ascii c = "."%char ↔ c = "."%char.
Proof.
  destruct c as [[] [] [] [] [] [] [] []]; vm_compute; split; congruence.
Qed.

Lemma lower_ascii_slash c : Js.lower_ascii c = "/"%char ↔ c = "/"%char.
Proof.
  destruct c as [[] [] [] [] [] [] [] []]; vm_compute; split; congruence.
Qed.

Lemma toLowerCase_app a b :
  Js.toLowerCase (a +:+ b) = Js.toLowerCase a +:+ Js.toLowerCase b.
Proof.
  induction a as [|c a IH]; [done|].
  rewrite string_app_cons. cbn. by rewrite IH.
Qed.

Lemma toLowerCase_join L :
  Js.toLowerCase (Js.join "/" L) = Js.join "/" (Js.toLowerCase <$> L).
Proof.
  induction L as [|m L IH]; [done|].
  destruct L as [|m' L]; [done|].
  change (Js.join "/" (m :: m' :: L))
    with (m +:+ "/" +:+ Js.join "/" (m' :: L)).
  rewrite !toLowerCase_app, IH. done.
Qed.

Lemma toLowerCase_split s :
  Js.split path.sep (Js.toLowerCase s) = Js.toLowerCase <$> Js.split path.sep s.
Proof.
  unfold path.sep. induction s as [|c s IH]; [done|]. cbn.
  destruct (Ascii.eqb c "/") eqn:Hc.
  - apply Ascii.eqb_eq in Hc as ->. cbn. by rewrite IH.
  - assert (Ascii.eqb (Js.lower_ascii c) "/" = false) as ->.
    { apply Ascii.eqb_neq. apply Ascii.eqb_neq in Hc.
      by rewrite lower_ascii_slash. }
    rewrite IH. by destruct (Js.split "/" s).
Qed.

Lemma toLowerCase_valid n : Fs.valid_name n → Fs.valid_name (Js.toLowerCase n).
Proof.
  intros (Hn1 & Hn2 & Hn3 & Hn4). split_and!.
  - by destruct n.
  - destruct n as [|c [|c' n]]; try done. cbn. intros [= Hc].
    apply lower_ascii_dot in Hc as ->. done.
  - destruct n as [|c [|c' [|c'' n]]]; try done. cbn. intros [= Hc Hc'].
    apply lower_ascii_dot in Hc as ->. apply lower_ascii_dot in Hc' as ->.
    done.
  - by rewrite toLowerCase_split, Hn4.
Qed.

Lemma normalizePath_canonical p : canonical p → canonical (normalizePath p).
Proof.
  intros (L & -> & HL). exists (Js.toLowerCase <$> L). split.
  - unfold normalizePath. rewrite normalize_render by done.
    unfold Fs.render. by rewrite toLowerCase_app, toLowerCase_join.
  - apply Forall_fmap. eapply Forall_impl; [done|]. apply toLowerCase_valid.
Qed.

Lemma vaultDirectories0_canonical proc :
  path.isAbsolute (cwd proc) = true → canonical (vaultDirectories0 proc).
Proof.
  intros Hcwd. unfold vaultDirectories0, vaultDirectories. cbn.
  by apply normalizePath_canonical, resolve_canonical.
Qed.

End Strings.

(** ** The file system *)

Section FileSystem.
Variable cwd : string.

Lemma walk_nil links d cur : Fs.walk links d cur [] = Some cur.
Proof. by destruct links. Qed.

Lemma walk_cons links d cur c rest :
  Fs.walk links d cur (c :: rest) =
  match Fs.node_at d cur with
  | Some Dir =>
      if decide (c = ".") then Fs.walk links d cur rest
      else if decide (c = "..") then Fs.walk links d (removelast cur) rest
      else
        match d !! (cur ++ [c]) with
        | None => None
        | Some (Symlink target) =>
            match links with
            | O => None
            | S links' =>
                Fs.walk links' d
                  (if path.isAbsolute target then [] else cur)
                  (Fs.segments target ++ rest)
            end
        | Some _ => Fs.walk links d (cur ++ [c]) rest
        end
  | _ => None
  end.
Proof. by destruct links. Qed.

(** Resolution does not look at the content of files. *)
Lemma walk_same_shape (links : nat) (d d' : disk) :
  (∀ k, shape (d !! k) = shape (d' !! k)) →
  ∀ comps cur, Fs.walk links d cur comps = Fs.walk links d' cur comps.
Proof.
  intros H. induction links as [|links IHl];
    (induction comps as [|c rest IH]; intros cur;
     [by rewrite !walk_nil|]).
  all: rewrite !walk_cons.
  all: pose proof (H cur) as Hc; pose proof (H (cur ++ [c])) as Hcc.
  all: unfold Fs.node_at; destruct (decide (cur = [])) as [->|Hne].
  all: try (destruct (d !! cur) as [[]|], (d' !! cur) as [[]|];
            simplify_eq/=; try done).
  all: repeat case_decide; try apply IH.
  all: destruct (d !! (_ ++ [c])) as [[]|], (d' !! (_ ++ [c])) as [[]|];
         simplify_eq/=; try done; try apply IH; try apply IHl.
Qed.

Lemma resolve_same_shape (d d' : disk) (p : string) :
  (∀ k, shape (d !! k) = shape (d' !! k)) →
  Fs.resolve cwd d p = Fs.resolve cwd d' p.
Proof. intros H. unfold Fs.resolve. by apply walk_same_shape. Qed.

Lemma shape_overwrite (d : disk) (r : list string) (old content : string) :
  d !! r = Some (File old) →
  ∀ k, shape (<[r := File content]> d !! k) = shape (d !! k).
Proof.
  intros Hr k. destruct (decide (r = k)) as [->|Hne].
  - by rewrite lookup_insert_eq, Hr.
  - by rewrite lookup_insert_ne.
Qed.

Lemma readFile_Ok p w content :
  (Fs.readFile cwd p w).1 = Ok content →
  ∃ r, Fs.resolve cwd (w_disk w) p = Some r ∧
       w_disk w !! r = Some (File content).
Proof.
  unfold Fs.readFile, bind, Fs.log, Fs.on_disk. cbn.
  destruct (Fs.resolve cwd (w_disk w) p) as [r|]; [|done].
  destruct (w_disk w !! r) as [[]|] eqn:E; try done.
  intros [= ->]. by exists r.
Qed.

(** Writing to an existing file replaces its content, and reading the
    same path afterwards gives what was written. *)
Lemma writeFile_existing p content w r old :
  Fs.resolve cwd (w_disk w) p = Some r →
  w_disk w !! r = Some (File old) →
  Fs.writeFile cwd p content w =
    (Ok (), World (<[r := File content]> (w_disk w))
                  (w_trace w ++ [WriteFile p content])).
Proof.
  intros Hr Hl. unfold Fs.writeFile, bind, Fs.log, Fs.set_disk. cbn.
  by rewrite Hr, Hl.
Qed.

Lemma readFile_after_write (p content : string) (d : disk)
    (tr : list syscall) (r : list string) (old : string) :
  Fs.resolve cwd d p = Some r →
  d !! r = Some (File old) →
  (Fs.readFile cwd p (World (<[r := File content]> d) tr)).1 = Ok content.
Proof.
  intros Hr Hl. unfold Fs.readFile, bind, Fs.log, Fs.on_disk. cbn.
  rewrite (resolve_same_shape _ d), Hr
    by (by apply shape_overwrite with old).
  by rewrite lookup_insert_eq.
Qed.

(** A path that resolves to a directory, followed by the name of a
    directory in it, resolves to that directory. *)
Lemma walk_snoc (links : nat) (d : disk) (n : string) :
  n ≠ "." → n ≠ ".." →
  ∀ comps cur r,
    Fs.walk links d cur comps = Some r →
    Fs.node_at d r = Some Dir →
    d !! (r ++ [n]) = Some Dir →
    Fs.walk links d cur (comps ++ [n]) = Some (r ++ [n]).
Proof.
  intros Hn1 Hn2. induction links as [|links IHl];
    (induction comps as [|c rest IH]; intros cur r Hw Hr Hl;
     [rewrite walk_nil in Hw; injection Hw as ->;
      cbn [app]; rewrite walk_cons, Hr, !decide_False, Hl by done;
      by rewrite walk_nil|]).
  all: cbn [app]; rewrite walk_cons in Hw |- *.
  all: destruct (Fs.node_at d cur) as [[]|]; try done.
  all: repeat case_decide; try by apply IH.
  all: destruct (d !! (cur ++ [c])) as [[]|]; try done; try by apply IH.
  rewrite app_assoc. by apply IHl.
Qed.

(** What a listing shows is on the disk, under a valid name. *)
Lemma entry_name_Some r k n :
  Fs.entry_name r k = Some n → k = r ++ [n] ∧ Fs.valid_name n.
Proof.
  unfold Fs.entry_name. destruct (reverse k) as [|m rp] eqn:E; [done|].
  case_decide as H; [|done]. intros [= <-]. destruct H as [<- Hv].
  split; [|done].
  rewrite <- (reverse_involutive k), E. by rewrite reverse_cons.
Qed.

Lemma entries_elem (d : disk) (r : list string) (e : Dirent) :
  e ∈ Fs.entries d r →
  Fs.valid_name (name e) ∧
  ∃ nd, d !! (r ++ [name e]) = Some nd ∧ isDirectory e = bool_decide (nd = Dir).
Proof.
  unfold Fs.entries. intros ([k nd] & Hin & He)%list_elem_of_omap.
  apply elem_of_map_to_list in Hin. cbn in He.
  destruct (Fs.entry_name r k) as [n|] eqn:En; [|done].
  cbn in He. injection He as <-. cbn.
  apply entry_name_Some in En as [-> Hv]. eauto.
Qed.

Lemma depth_ge (d : disk) (k : list string) (nd : node) :
  d !! k = Some nd → length k ≤ depth d.
Proof.
  intros Hk. unfold depth. apply max_list_elem_of_le.
  apply list_elem_of_fmap. exists k. split; [done|].
  apply list_elem_of_fmap. exists (k, nd). split; [done|].
  by apply elem_of_map_to_list.
Qed.

End FileSystem.

(** ** [validatePath] *)

Section ValidatePath.
Variable proc : Process.

(** [validatePath] as a decision tree over the two resolutions. *)
Lemma validatePath_unfold requestedPath w :
  validatePath proc requestedPath w =
  let absolute := absolute_of proc requestedPath in
  if hidden requestedPath then (Throw HiddenPathDenied, w)
  else if allowed proc absolute then
    match Fs.resolve (cwd proc) (w_disk w) absolute with
    | Some r =>
        if allowed proc (Fs.render r)
        then (Ok (Fs.render r), traced w [Realpath absolute])
        else parent_check proc absolute w
    | None => parent_check proc absolute w
    end
  else (Throw (OutsideVault absolute (vaultDirectories proc)), w).
Proof.
  unfold validatePath, parent_check, hidden, allowed. cbn zeta.
  match goal with
  | |- context [existsb ?f (Js.split ?a ?b)] =>
      destruct (existsb f (Js.split a b))
  end; [done|].
  destruct (inAllowedDirectories proc
              (normalizePath (absolute_of proc requestedPath))); [|done].
  cbn [negb].
  unfold try_catch, bind, Fs.realpath, Fs.log, Fs.on_disk, traced; cbn.
  destruct (Fs.resolve _ _ (absolute_of _ _)) as [r|]; cbn.
  - destruct (inAllowedDirectories proc (normalizePath (Fs.render r)));
      cbn; [done|].
    destruct (Fs.resolve _ _ (path.dirname _)) as [rp|]; cbn.
    + destruct (inAllowedDirectories proc (normalizePath (Fs.render rp)));
        cbn; rewrite <- ?app_assoc; done.
    + rewrite <- ?app_assoc; done.
  - destruct (Fs.resolve _ _ (path.dirname _)) as [rp|]; cbn.
    + destruct (inAllowedDirectories proc (normalizePath (Fs.render rp)));
        cbn; rewrite <- ?app_assoc; done.
    + rewrite <- ?app_assoc; done.
Qed.

Lemma hidden_segment requestedPath seg :
  seg ∈ Js.split path.sep requestedPath →
  Js.startsWith seg "." = true →
  hidden requestedPath = true.
Proof.
  intros Hin Hdot. unfold hidden. apply existsb_exists.
  exists seg. split; [by apply list_elem_of_In|done].
Qed.

Lemma validatePath_hidden requestedPath w :
  hidden requestedPath = true →
  validatePath proc requestedPath w = (Throw HiddenPathDenied, w).
Proof. intros H. rewrite validatePath_unfold. cbn zeta. by rewrite H. Qed.

(** C6: a candidate with a segment that begins with "." is denied as
    hidden, whatever the process is configured with and whatever the
    disk holds; the world comes back as it was, so the decision is made
    before any call into the file system (no entry is added to the
    trace), and it does not depend on where the candidate resolves. *)
Theorem validatePath_denies_hidden requestedPath seg w :
  seg ∈ Js.split path.sep requestedPath →
  Js.startsWith seg "." = true →
  validatePath proc requestedPath w = (Throw HiddenPathDenied, w).
Proof.
  intros Hin Hdot. apply validatePath_hidden. by eapply hidden_segment.
Qed.

(** C7, as the code has it: a candidate whose normalized absolute form
    has no root as a prefix is denied and the world comes back as it
    was (no call into the file system); the reason is [OutsideVault],
    unless the candidate has a segment that begins with ".", which is
    reported first, as [HiddenPathDenied]. *)
Theorem validatePath_denies_outside requestedPath w :
  allowed proc (absolute_of proc requestedPath) = false →
  validatePath proc requestedPath w =
    (Throw (if hidden requestedPath then HiddenPathDenied
            else OutsideVault (absolute_of proc requestedPath)
                              (vaultDirectories proc)), w).
Proof.
  intros H. rewrite validatePath_unfold. cbn zeta. rewrite H.
  by destruct (hidden requestedPath).
Qed.

(** C1, what the code does: when the candidate passes the first prefix
    test and resolves to a real path outside every root, the
    [SymlinkEscape] error is thrown inside the [try] whose [catch] goes
    on to the parent check.  The outcome is that of the parent check:
    the candidate itself is returned as allowed when its parent
    resolves inside a root, and the denial is [ParentMissing]
    otherwise; it is never [SymlinkEscape]. *)
Theorem validatePath_symlink_escape_swallowed requestedPath w r :
  let absolute := absolute_of proc requestedPath in
  let parentDir := path.dirname absolute in
  hidden requestedPath = false →
  allowed proc absolute = true →
  Fs.resolve (cwd proc) (w_disk w) absolute = Some r →
  allowed proc (Fs.render r) = false →
  (validatePath proc requestedPath w).1 =
    match Fs.resolve (cwd proc) (w_disk w) parentDir with
    | Some rp =>
        if allowed proc (Fs.render rp) then Ok absolute
        else Throw (ParentMissing parentDir)
    | None => Throw (ParentMissing parentDir)
    end ∧
  (validatePath proc requestedPath w).1 ≠ Throw SymlinkEscape.
Proof.
  intros absolute parentDir Hh Ha Hr Hn.
  assert (validatePath proc requestedPath w = parent_check proc absolute w)
    as Heq.
  { rewrite validatePath_unfold. cbn zeta. fold absolute.
    by rewrite Hh, Ha, Hr, Hn. }
  rewrite Heq. unfold parent_check. cbn. fold parentDir. split; [done|].
  destruct (Fs.resolve _ _ parentDir) as [rp|];
    [destruct (allowed proc (Fs.render rp))|]; discriminate.
Qed.

(** C3, what the code does: when the candidate does not resolve and its
    parent resolves outside every root, the [ParentOutsideVault] error
    is thrown inside the inner [try], whose [catch] replaces it: the
    denial is [ParentMissing], the same as when the parent does not
    exist. *)
Theorem validatePath_parent_outside_reported_missing requestedPath w rp :
  let absolute := absolute_of proc requestedPath in
  let parentDir := path.dirname absolute in
  hidden requestedPath = false →
  allowed proc absolute = true →
  Fs.resolve (cwd proc) (w_disk w) absolute = None →
  Fs.resolve (cwd proc) (w_disk w) parentDir = Some rp →
  allowed proc (Fs.render rp) = false →
  (validatePath proc requestedPath w).1 = Throw (ParentMissing parentDir) ∧
  (validatePath proc requestedPath w).1 ≠ Throw ParentOutsideVault.
Proof.
  intros absolute parentDir Hh Ha Hr Hp Hn.
  rewrite validatePath_unfold. cbn zeta. fold absolute.
  rewrite Hh, Ha, Hr. unfold parent_check. cbn. fold parentDir.
  by rewrite Hp, Hn.
Qed.

(** The other way into [ParentMissing]: the parent does not exist. *)
Lemma validatePath_parent_missing requestedPath w :
  let absolute := absolute_of proc requestedPath in
  let parentDir := path.dirname absolute in
  hidden requestedPath = false →
  allowed proc absolute = true →
  Fs.resolve (cwd proc) (w_disk w) absolute = None →
  Fs.resolve (cwd proc) (w_disk w) parentDir = None →
  validatePath proc requestedPath w =
    (Throw (ParentMissing parentDir),
     traced w [Realpath absolute; Realpath parentDir]).
Proof.
  intros absolute parentDir Hh Ha Hr Hp.
  rewrite validatePath_unfold. cbn zeta. fold absolute.
  rewrite Hh, Ha, Hr. unfold parent_check. cbn. fold parentDir.
  by rewrite Hp.
Qed.

Lemma validatePath_no_timeout requestedPath w :
  (validatePath proc requestedPath w).1 ≠ OutOfFuel.
Proof.
  rewrite validatePath_unfold. cbn zeta. unfold parent_check.
  repeat (match goal with
          | |- context [if ?b then _ else _] => destruct b
          | |- context [match ?x with Some _ => _ | None => _ end] => destruct x
          end; cbn); discriminate.
Qed.

End ValidatePath.

(** Witness of C6: the hidden directory of the example vault lies inside
    the root, and its note is denied all the same. *)
Lemma validatePath_denies_hidden_witness :
  validatePath vault_proc "/vault/.hidden/secret.md" vault_world =
    (Throw HiddenPathDenied, vault_world).
Proof.
  apply (validatePath_denies_hidden vault_proc "/vault/.hidden/secret.md"
           ".hidden" vault_world).
  - vm_compute. set_solver.
  - reflexivity.
Defined.

(** Counterexample to C7 as stated: [/etc/.ssh/id_rsa] has no root as a
    prefix, and the reason of its denial is not [OutsideVault]. *)
Lemma validatePath_outside_hidden_counterexample :
  allowed vault_proc (absolute_of vault_proc "/etc/.ssh/id_rsa") = false ∧
  (validatePath vault_proc "/etc/.ssh/id_rsa" vault_world).1 =
    Throw HiddenPathDenied ∧
  ∀ absolute dirs,
    (validatePath vault_proc "/etc/.ssh/id_rsa" vault_world).1 ≠
      Throw (OutsideVault absolute dirs).
Proof.
  split; [reflexivity|]. split; [reflexivity|].
  intros absolute dirs H. vm_compute in H. discriminate H.
Qed.

(** Witness of the amended C7. *)
Lemma validatePath_denies_outside_witness :
  validatePath vault_proc "/etc/passwd" vault_world =
    (Throw (OutsideVault "/etc/passwd" ["/vault"]), vault_world).
Proof.
  apply (validatePath_denies_outside vault_proc "/etc/passwd" vault_world).
  reflexivity.
Defined.

(** Witness of C1: the link [/vault/link.md] points to [/etc/passwd], and
    [validatePath] returns it as allowed. *)
Lemma validatePath_symlink_escape_witness :
  (validatePath vault_proc "/vault/link.md" linked_world).1 =
    Ok "/vault/link.md" ∧
  (validatePath vault_proc "/vault/link.md" linked_world).1 ≠
    Throw SymlinkEscape.
Proof.
  apply (validatePath_symlink_escape_swallowed vault_proc "/vault/link.md"
           linked_world ["etc"; "passwd"]); reflexivity.
Defined.

(** Witness of C3: [/vault/out] is a link to [/tmp]; a new note below it
    is denied with the reason of a missing parent. *)
Lemma validatePath_parent_outside_witness :
  (validatePath vault_proc "/vault/out/new.md" linked_world).1 =
    Throw (ParentMissing "/vault/out") ∧
  (validatePath vault_proc "/vault/out/new.md" linked_world).1 ≠
    Throw ParentOutsideVault.
Proof.
  apply (validatePath_parent_outside_reported_missing vault_proc
           "/vault/out/new.md" linked_world ["tmp"]); reflexivity.
Defined.

(** The two ways into [ParentMissing] next to each other: below the
    link [out] the parent exists and lies outside the vault; [nodir]
    does not exist. *)
Example validatePath_parent_missing_example :
  (validatePath vault_proc "/vault/out/new.md" linked_world).1 =
    Throw (ParentMissing "/vault/out") ∧
  (validatePath vault_proc "/vault/nodir/new.md" linked_world).1 =
    Throw (ParentMissing "/vault/nodir").
Proof. split; reflexivity. Qed.

(** What C1 means for [read_notes]: the note [link.md] is read through
    the link, and the reply holds the content of [/etc/passwd]. *)
Example read_notes_follows_link :
  (callTool vault_proc 4
     {| tool := "read_notes"; args := ReadNotesArgs ["link.md"] |}
     linked_world).1
  = Ok {| text := "link.md:" +:+ LF +:+ "root:x:0:0" +:+ LF;
          isError := false |}.
Proof. vm_compute. reflexivity. Qed.

(** C2: [/vaultX/note.md] is not under the root [/vault], neither as a
    path nor as the place it resolves to, and [validatePath] returns it
    as allowed: the string [/vaultx/note.md] starts with [/vault], both
    before and after resolution. *)
Theorem validatePath_allows_sibling_of_root :
  ∃ candidate : string,
    Forall (λ dir, ¬ under dir (absolute_of vault_proc candidate))
           (vaultDirectories vault_proc) ∧
    Fs.resolve "/" vault_disk candidate = Some ["vaultX"; "note.md"] ∧
    Fs.resolve "/" vault_disk (vaultDirectories0 vault_proc) = Some ["vault"] ∧
    ¬ ["vault"] `prefix_of` ["vaultX"; "note.md"] ∧
    validatePath vault_proc candidate vault_world =
      (Ok candidate, traced vault_world [Realpath candidate]).
Proof.
  exists "/vaultX/note.md". split_and!.
  - constructor; [|constructor].
    intros [k Hk]. vm_compute in Hk. discriminate Hk.
  - reflexivity.
  - reflexivity.
  - intros [k Hk]. discriminate Hk.
  - reflexivity.
Qed.

(** The same through the parent check, for a note that does not exist
    yet. *)
Example validatePath_allows_new_sibling :
  validatePath vault_proc "/vaultX/new.md" vault_world =
    (Ok "/vaultX/new.md",
     traced vault_world [Realpath "/vaultX/new.md"; Realpath "/vaultX"]).
Proof. reflexivity. Qed.

(** ** [searchNotes] *)

Section Search.
Variable proc : Process.

(** [validatePath] and [readdir] only read; the combinators keep that,
    and so the whole of [search] only reads the disk and appends to the
    results. *)
Lemma reader_validatePath requestedPath :
  reader (validatePath proc requestedPath).
Proof.
  intros d.
  destruct (hidden requestedPath) eqn:Hh.
  { exists (Throw HiddenPathDenied), []. intros tr.
    rewrite validatePath_unfold. cbn zeta. rewrite Hh.
    by rewrite app_nil_r. }
  destruct (allowed proc (absolute_of proc requestedPath)) eqn:Ha; cycle 1.
  { eexists _, []. intros tr.
    rewrite validatePath_unfold. cbn zeta. rewrite Hh, Ha.
    by rewrite app_nil_r. }
  destruct (Fs.resolve (cwd proc) d (absolute_of proc requestedPath))
    as [r|] eqn:Hr;
    [destruct (allowed proc (Fs.render r)) eqn:Har|].
  all: eexists _, _; intros tr; rewrite validatePath_unfold; cbn zeta;
    rewrite Hh, Ha; unfold parent_check, traced; cbn; rewrite Hr, ?Har;
    reflexivity.
Qed.

Lemma reader_readdir p : reader (Fs.readdir (cwd proc) p).
Proof.
  intros d.
  exists (Fs.readdir (cwd proc) p (World d [])).1, [Readdir p]. intros tr.
  unfold Fs.readdir, bind, Fs.log, Fs.on_disk. cbn.
  destruct (Fs.resolve (cwd proc) d p) as [r|]; [|reflexivity].
  destruct (Fs.node_at d r) as [[]|]; reflexivity.
Qed.

Lemma collector_in_world {A} (m : M world A) :
  reader m → collector (in_world m).
Proof.
  intros Hm d. destruct (Hm d) as (o & t & H).
  exists o, t, []. intros tr results. unfold in_world. cbn.
  by rewrite H, app_nil_r.
Qed.

Lemma collector_ret {A} (a : A) : collector (ret a).
Proof.
  intros d. exists (Ok a), [], []. intros. unfold ret.
  by rewrite !app_nil_r.
Qed.

Lemma collector_push x : collector (push x).
Proof.
  intros d. exists (Ok ()), [], [x]. intros. unfold push. cbn.
  by rewrite app_nil_r.
Qed.

Lemma collector_out_of_fuel {A} :
  collector (λ s, (@OutOfFuel A, s)).
Proof.
  intros d. exists OutOfFuel, [], []. intros. by rewrite !app_nil_r.
Qed.

Lemma collector_bind {A B} (m : M (world * list string) A)
    (k : A → M (world * list string) B) :
  collector m → (∀ a, collector (k a)) → collector (bind m k).
Proof.
  intros Hm Hk d. destruct (Hm d) as (o & t & g & H).
  destruct o as [a| |].
  - destruct (Hk a d) as (o' & t' & g' & H').
    exists o', (t ++ t'), (g ++ g'). intros. unfold bind.
    by rewrite H, H', !app_assoc.
  - exists (Throw e), t, g. intros. unfold bind. by rewrite H.
  - exists OutOfFuel, t, g. intros. unfold bind. by rewrite H.
Qed.

Lemma collector_try_catch {A} (m : M (world * list string) A)
    (h : error → M (world * list string) A) :
  collector m → (∀ e, collector (h e)) → collector (try_catch m h).
Proof.
  intros Hm Hh d. destruct (Hm d) as (o & t & g & H).
  destruct o as [a|e|].
  - exists (Ok a), t, g. intros. unfold try_catch. by rewrite H.
  - destruct (Hh e d) as (o' & t' & g' & H').
    exists o', (t ++ t'), (g ++ g'). intros. unfold try_catch.
    by rewrite H, H', !app_assoc.
  - exists OutOfFuel, t, g. intros. unfold try_catch. by rewrite H.
Qed.

Lemma collector_search_entry query descend basePath currentPath entry :
  (∀ p, collector (descend p)) →
  collector (search_entry proc query descend basePath currentPath entry).
Proof.
  intros Hd. unfold search_entry.
  apply collector_try_catch; [|intros; apply collector_ret].
  apply collector_bind;
    [apply collector_in_world, reader_validatePath|intros _].
  apply collector_bind.
  - destruct (_ && _); [apply collector_push|apply collector_ret].
  - intros _. destruct (isDirectory entry); [apply Hd|apply collector_ret].
Qed.

Lemma collector_search_entries query descend basePath currentPath entries :
  (∀ p, collector (descend p)) →
  collector (search_entries proc query descend basePath currentPath entries).
Proof.
  intros Hd. induction entries as [|e es IH]; cbn.
  - apply collector_ret.
  - apply collector_bind; [by apply collector_search_entry|done].
Qed.

Lemma collector_search fuel query basePath currentPath :
  collector (search proc fuel query basePath currentPath).
Proof.
  revert currentPath. induction fuel as [|fuel IH]; intros currentPath; cbn.
  - apply collector_out_of_fuel.
  - apply collector_bind;
      [apply collector_in_world, reader_readdir|intros entries].
    by apply collector_search_entries.
Qed.

(** Whatever [descend] does, the loop over the entries of a directory
    does not throw: the body of the loop is one [try] whose [catch]
    goes on to the next entry. *)
Lemma search_entry_no_throw query descend basePath currentPath entry s e :
  (search_entry proc query descend basePath currentPath entry s).1 ≠ Throw e.
Proof.
  unfold search_entry, try_catch.
  destruct (bind _ _ s) as [[a|e'|] s']; cbn; discriminate.
Qed.




(** *** Termination

    Below a canonical directory whose listing shows the name [n] as a
    directory, [search] descends to the directory joined with [n], which
    resolves one component deeper; no location on the disk is longer
    than [depth], so the budget that is left never reaches zero before
    the listings end. *)

Lemma resolve_render (d : disk) (L : list string) :
  Forall Fs.valid_name L →
  Fs.resolve (cwd proc) d (Fs.render L) = Fs.walk Fs.MAXSYMLINKS d [] L.
Proof.
  intros HL. unfold Fs.resolve.
  by rewrite segments_render, isAbsolute_render.
Qed.

(** The loop body ends normally when the descent, if any, does. *)
Lemma search_entry_no_timeout (d : disk) query descend basePath currentPath e :
  (∀ p, collector (descend p)) →
  (isDirectory e = true →
   ∀ tr rs, (descend (path.join [currentPath; name e]) (World d tr, rs)).1
            ≠ OutOfFuel) →
  ∀ tr rs,
    (search_entry proc query descend basePath currentPath e
       (World d tr, rs)).1 = Ok ().
Proof.
  intros Hc Hd tr rs.
  pose proof (search_entry_no_throw query descend basePath currentPath e
                (World d tr, rs)) as Hnt.
  assert ((search_entry proc query descend basePath currentPath e
             (World d tr, rs)).1 ≠ OutOfFuel) as Hno; cycle 1.
  { destruct (search_entry _ _ _ _ _ _ _) as [[[]|err|] s']; cbn in *;
      [done|by destruct (Hnt err)|done]. }
  clear Hnt. unfold search_entry, try_catch, bind, in_world. cbn.
  destruct (reader_validatePath (path.join [currentPath; name e]) d)
    as (o & t & H).
  pose proof (validatePath_no_timeout proc (path.join [currentPath; name e])
                (World d tr)) as Hv.
  rewrite H in Hv |- *. cbn in Hv.
  destruct o as [v|err|]; [|done..].
  destruct (Js.endsWith (name e) ".md" && matches proc query (name e));
    unfold push, ret; cbn.
  all: destruct (isDirectory e) eqn:Edir; [|done].
  all: specialize (Hd eq_refl).
  all: match goal with
       | |- context [(World _ ?tr0, ?rs0)] =>
           pose proof (Hd tr0 rs0) as Hd'
       end.
  all: destruct (descend _ _) as [[[]|err|] s']; done.
Qed.

Lemma search_no_timeout (d : disk) query basePath :
  ∀ fuel L tr rs,
    Forall Fs.valid_name L → 0 < fuel →
    (∀ r, Fs.walk Fs.MAXSYMLINKS d [] L = Some r → depth d < fuel + length r) →
    (search proc fuel query basePath (Fs.render L) (World d tr, rs)).1
      ≠ OutOfFuel.
Proof.
  induction fuel as [|fuel IH]; intros L tr rs HL Hpos Hb; [lia|].
  cbn [search]. unfold bind, in_world. cbn [fst snd].
  unfold Fs.readdir at 1. unfold bind, Fs.log, Fs.on_disk. cbn.
  rewrite resolve_render by done.
  destruct (Fs.walk Fs.MAXSYMLINKS d [] L) as [r|] eqn:Hr; [|done].
  destruct (Fs.node_at d r) as [[]|] eqn:Hnode; try done.
  specialize (Hb r eq_refl).
  assert (∀ es tr rs,
            es ⊆ Fs.entries d r →
            (search_entries proc query (search proc fuel query basePath)
               basePath (Fs.render L) es (World d tr, rs)).1 = Ok ()) as Hloop.
  { clear tr rs. induction es as [|e es IHes]; intros tr rs Hsub; [done|].
    cbn [search_entries]. unfold bind.
    assert (e ∈ Fs.entries d r) as He by (apply Hsub; constructor).
    apply entries_elem in He as (Hv & nd & Hnd & Hisdir).
    destruct (collector_search_entry query
                (search proc fuel query basePath) basePath (Fs.render L) e
                (collector_search fuel query basePath) d)
      as (o & t & g & Hcol).
    assert (isDirectory e = true →
            ∀ tr' rs',
              (search proc fuel query basePath
                 (path.join [Fs.render L; name e]) (World d tr', rs')).1
              ≠ OutOfFuel) as Hdesc.
    { intros Hdir tr' rs'. rewrite Hdir in Hisdir.
      symmetry in Hisdir. apply bool_decide_eq_true in Hisdir as ->.
      rewrite join_canonical by done.
      pose proof (depth_ge d _ _ Hnd) as Hdepth.
      rewrite length_app in Hdepth. cbn in Hdepth.
      destruct Hv as (? & ? & ? & ?).
      apply IH.
      - apply Forall_app. split; [done|]. by repeat constructor.
      - lia.
      - intros r'. erewrite walk_snoc by done. intros [= <-].
        rewrite length_app. cbn. lia. }
    pose proof (search_entry_no_timeout d query
                  (search proc fuel query basePath) basePath (Fs.render L) e
                  (collector_search fuel query basePath) Hdesc tr rs)
      as Hok.
    rewrite Hcol in Hok |- *. cbn in Hok. subst o.
    apply IHes. intros x Hx. apply Hsub. by constructor. }
  rewrite Hloop; done.
Qed.

(** A search with a budget above the depth of the disk ends. *)
Theorem searchNotes_terminates fuel query w :
  path.isAbsolute (cwd proc) = true →
  depth (w_disk w) < fuel →
  (searchNotes proc fuel query w).1 ≠ OutOfFuel.
Proof.
  intros Hcwd Hfuel.
  destruct (vaultDirectories0_canonical proc Hcwd) as (L & HL & Hv).
  unfold searchNotes.
  assert (vaultDirectories proc = [Fs.render L]) as ->.
  { rewrite <- HL. done. }
  cbn [search_all]. unfold bind. destruct w as [d tr]. cbn [w_disk] in Hfuel.
  assert ((search proc fuel query (Fs.render L) (Fs.render L)
             (World d tr, [])).1 ≠ OutOfFuel) as Hs.
  { apply search_no_timeout; [done|lia|]. intros r _. lia. }
  destruct (search _ _ _ _ _ _) as [[[]|e|] [w' rs]]; done.
Qed.

Lemma vaultDirectories_eq : vaultDirectories proc = [vaultDirectories0 proc].
Proof. reflexivity. Qed.



End Search.


(** The vault of the example: the two notes outside [.hidden] are found,
    each as its path below the root. *)
Example searchNotes_example_vault :
  Fs.entries vault_disk ["vault"] =
    [{| name := ".hidden"; isDirectory := true |};
     {| name := "b"; isDirectory := true |};
     {| name := "a"; isDirectory := true |}] ∧
  (searchNotes vault_proc 3 "" vault_world).1 = Ok ["/b/ok2.md"; "/a/ok.md"].
Proof. split; vm_compute; reflexivity. Qed.

(** ** The tool handlers *)

Section Handlers.
Variable proc : Process.

Lemma validatePath_disk requestedPath w :
  w_disk (validatePath proc requestedPath w).2 = w_disk w.
Proof.
  destruct w as [d tr].
  destruct (reader_validatePath proc requestedPath d) as (o & t & H).
  by rewrite H.
Qed.

Lemma dispatch_write_note fuel path content createDirectories :
  enableWrite (config proc) = true →
  dispatch proc fuel
    {| tool := "write_note";
       args := WriteNoteArgs path content createDirectories |} =
  if negb (Js.endsWith path ".md") then throw ExtensionRequired
  else
    let! validPath :=
      validatePath proc (path.join [vaultDirectories0 proc; path]) in
    let! _ :=
      if createDirectories
      then ensureDirectory proc (path.dirname validPath)
      else ret () in
    let! _ := Fs.writeFile (cwd proc) validPath content in
    ret ("Successfully wrote note to " +:+ path).
Proof. intros He. unfold dispatch. cbn. by rewrite He. Qed.

Lemma dispatch_update_note fuel path content mode :
  enableWrite (config proc) = true →
  dispatch proc fuel
    {| tool := "update_note"; args := UpdateNoteArgs path content mode |} =
  if negb (Js.endsWith path ".md") then throw ExtensionRequired
  else
    let! validPath :=
      validatePath proc (path.join [vaultDirectories0 proc; path]) in
    let! finalContent :=
      if decide (mode ≠ replace) then
        let! existingContent := Fs.readFile (cwd proc) validPath in
        ret (if decide (mode = append)
             then existingContent +:+ LF +:+ content
             else content +:+ LF +:+ existingContent)
      else ret content in
    let! _ := Fs.writeFile (cwd proc) validPath finalContent in
    ret ("Successfully updated note at " +:+ path).
Proof. intros He. unfold dispatch. cbn. by rewrite He. Qed.

Lemma dispatch_search_notes fuel query :
  dispatch proc fuel
    {| tool := "search_notes"; args := SearchNotesArgs query |} =
  let! results := searchNotes proc fuel query in
  ret (search_text results).
Proof. reflexivity. Qed.

(** C4, what the code does: [write_note] validates the path before it
    creates any directory, and [validatePath] denies a new note whose
    parent directory does not exist.  With [createDirectories] set, the
    call ends in the error reply of the missing parent, and the disk is
    as it was: no directory is created and nothing is written. *)
Theorem write_note_missing_parent_fails fuel path content w :
  let fullPath := path.join [vaultDirectories0 proc; path] in
  let absolute := absolute_of proc fullPath in
  enableWrite (config proc) = true →
  Js.endsWith path ".md" = true →
  hidden fullPath = false →
  allowed proc absolute = true →
  Fs.resolve (cwd proc) (w_disk w) absolute = None →
  Fs.resolve (cwd proc) (w_disk w) (path.dirname absolute) = None →
  ∃ w',
    callTool proc fuel
      {| tool := "write_note"; args := WriteNoteArgs path content true |} w
    = (Ok {| text := "Error: Parent directory does not exist: " +:+
                     path.dirname absolute;
             isError := true |}, w') ∧
    w_disk w' = w_disk w.
Proof.
  intros fullPath absolute He Hmd Hh Ha Hr Hp.
  unfold callTool, try_catch. unfold bind at 1.
  rewrite dispatch_write_note by done. rewrite Hmd. cbn [negb].
  unfold bind at 1. fold fullPath.
  rewrite (validatePath_parent_missing proc fullPath w Hh Ha Hr Hp).
  fold absolute. cbn. eexists. split; reflexivity.
Qed.

(** C8: [update_note] on a path that validates and holds a file leaves
    that file with the new content ([replace]), the old content, a line
    feed and the new content ([append]), or the new content, a line
    feed and the old content ([prepend]). *)
Theorem update_note_content fuel path content mode w validPath w1 existing :
  enableWrite (config proc) = true →
  Js.endsWith path ".md" = true →
  validatePath proc (path.join [vaultDirectories0 proc; path]) w
    = (Ok validPath, w1) →
  (Fs.readFile (cwd proc) validPath w1).1 = Ok existing →
  ∃ w',
    callTool proc fuel
      {| tool := "update_note"; args := UpdateNoteArgs path content mode |} w
    = (Ok {| text := "Successfully updated note at " +:+ path;
             isError := false |}, w') ∧
    (Fs.readFile (cwd proc) validPath w').1 =
      Ok (match mode with
          | replace => content
          | append => existing +:+ LF +:+ content
          | prepend => content +:+ LF +:+ existing
          end).
Proof.
  intros He Hmd Hv Hread.
  destruct (readFile_Ok _ _ _ _ Hread) as (r & Hr & Hl).
  unfold callTool, try_catch. unfold bind at 1.
  rewrite dispatch_update_note by done. rewrite Hmd. cbn [negb].
  unfold bind at 1. rewrite Hv.
  assert (∀ tr, Fs.readFile (cwd proc) validPath (World (w_disk w1) tr) =
                (Ok existing, World (w_disk w1) (tr ++ [ReadFile validPath])))
    as Hread'.
  { intros tr. unfold Fs.readFile, bind, Fs.log, Fs.on_disk. cbn.
    by rewrite Hr, Hl. }
  destruct w1 as [d1 tr1]. cbn in Hr, Hl, Hread'.
  destruct mode; repeat (case_decide; try done);
    unfold bind, ret; rewrite ?Hread';
    erewrite writeFile_existing by done; cbn;
    (eexists; split; [reflexivity|]);
    by eapply readFile_after_write.
Qed.

End Handlers.

(** Witness of C4: [write_note] of [sub/note.md] with [createDirectories]
    set, in the example vault, which has no directory [sub]. *)
Lemma write_note_missing_parent_witness :
  ∃ w',
    callTool vault_proc 3
      {| tool := "write_note";
         args := WriteNoteArgs "sub/note.md" "text" true |} vault_world
    = (Ok {| text := "Error: Parent directory does not exist: /vault/sub";
             isError := true |}, w') ∧
    w_disk w' = vault_disk.
Proof.
  apply (write_note_missing_parent_fails vault_proc 3 "sub/note.md" "text"
           vault_world); reflexivity.
Defined.

(** With an existing parent the same call writes the note; there
    [ensureDirectory] finds the directory and creates nothing. *)
Example write_note_existing_parent :
  let call :=
    callTool vault_proc 4
      {| tool := "write_note";
         args := WriteNoteArgs "a/new.md" "text" true |} vault_world in
  call.1 = Ok {| text := "Successfully wrote note to a/new.md";
                 isError := false |} ∧
  (Fs.readFile "/" "/vault/a/new.md" call.2).1 = Ok "text" ∧
  w_trace call.2 = [Realpath "/vault/a/new.md"; Realpath "/vault/a";
                    Access "/vault/a"; WriteFile "/vault/a/new.md" "text"].
Proof. split_and!; vm_compute; reflexivity. Qed.

(** Witness of C8: the three modes on the note [a/ok.md], which holds
    [line1]. *)
Lemma update_note_content_witness :
  (∃ w',
     callTool vault_proc 3
       {| tool := "update_note";
          args := UpdateNoteArgs "a/ok.md" "line2" append |} vault_world
     = (Ok {| text := "Successfully updated note at a/ok.md";
              isError := false |}, w') ∧
     (Fs.readFile "/" "/vault/a/ok.md" w').1 = Ok ("line1" +:+ LF +:+ "line2")) ∧
  (∃ w',
     callTool vault_proc 3
       {| tool := "update_note";
          args := UpdateNoteArgs "a/ok.md" "line2" prepend |} vault_world
     = (Ok {| text := "Successfully updated note at a/ok.md";
              isError := false |}, w') ∧
     (Fs.readFile "/" "/vault/a/ok.md" w').1 = Ok ("line2" +:+ LF +:+ "line1")) ∧
  (∃ w',
     callTool vault_proc 3
       {| tool := "update_note";
          args := UpdateNoteArgs "a/ok.md" "line2" replace |} vault_world
     = (Ok {| text := "Successfully updated note at a/ok.md";
              isError := false |}, w') ∧
     (Fs.readFile "/" "/vault/a/ok.md" w').1 = Ok "line2").
Proof.
  split_and!.
  - apply (update_note_content vault_proc 3 "a/ok.md" "line2" append
             vault_world "/vault/a/ok.md"
             (traced vault_world [Realpath "/vault/a/ok.md"]) "line1");
      reflexivity.
  - apply (update_note_content vault_proc 3 "a/ok.md" "line2" prepend
             vault_world "/vault/a/ok.md"
             (traced vault_world [Realpath "/vault/a/ok.md"]) "line1");
      reflexivity.
  - apply (update_note_content vault_proc 3 "a/ok.md" "line2" replace
             vault_world "/vault/a/ok.md"
             (traced vault_world [Realpath "/vault/a/ok.md"]) "line1");
      reflexivity.
Defined.

(** ** The reply of [search_notes] *)

Section SearchReply.
Variable proc : Process.








(** ** Where the normalized forms go *)



End SearchReply.


(** The reply on the example vault, and the reply for 201 results. *)
Example search_notes_example_vault :
  (callTool vault_proc 3
     {| tool := "search_notes"; args := SearchNotesArgs "" |} vault_world).1
  = Ok {| text := "/b/ok2.md" +:+ LF +:+ "/a/ok.md"; isError := false |}.
Proof. vm_compute. reflexivity. Qed.

Example search_text_201 :
  search_text (replicate 201 "/n.md") =
  Js.join LF (replicate 200 "/n.md") +:+ LF +:+ LF +:+
  "... 1 more results not shown.".
Proof. vm_compute. reflexivity. Qed.


(** * Further properties *)

(** ** The command line *)

Lemma parseArgs_loop_spec args config :
  parseArgs_loop args config =
  {| vaultPath :=
       if bool_decide (vaultPath config = "")
       then default "" (head (positional args))
       else vaultPath config;
     enableWrite := enableWrite config || existsb write_flag args |}.
Proof.
  revert config. induction args as [|arg args IH]; intros [vp ew]; cbn.
  - rewrite orb_false_r. case_bool_decide; by subst.
  - fold (write_flag arg).
    destruct (write_flag arg) eqn:Hf; cbn.
    + rewrite IH. cbn.
      rewrite decide_False by (intros [? _]; done).
      by rewrite orb_true_r.
    + case_bool_decide as Hvp; rewrite IH; cbn.
      * subst vp. destruct (decide (arg = "")) as [->|Hne].
        -- rewrite decide_False by (intros [_ ?]; done).
           by rewrite bool_decide_eq_true_2.
        -- rewrite decide_True by done.
           by rewrite bool_decide_eq_false_2.
      * by rewrite bool_decide_eq_false_2.
Qed.

(** X1: [parseArgs]: the flags [--enable-write] and [-w] may stand
    anywhere and turn writing on; the vault is the first argument that
    is neither a flag nor empty, and the arguments after it that are no
    flags are ignored; without such an argument the process exits. *)
Theorem parseArgs_spec args :
  parseArgs args =
  match positional args with
  | [] => None
  | vault :: _ =>
      Some {| vaultPath := vault; enableWrite := existsb write_flag args |}
  end.
Proof.
  unfold parseArgs. rewrite parseArgs_loop_spec. cbn.
  destruct (positional args) as [|vault rest] eqn:E; [done|]. cbn.
  assert (vault ≠ "") as Hne.
  { assert (vault ∈ positional args) as Hin by (rewrite E; constructor).
    apply list_elem_of_filter in Hin as [[_ ?] _]. done. }
  by rewrite bool_decide_eq_false_2.
Qed.

(** ** Frames and failures

    [within R E m]: running [m] moves the state along [R] and fails
    only as [E] allows.  The combinators of the monad keep that, the
    calls into [fs] have their frames, and so the frame of a handler is
    read off its code. *)
Lemma within_ret {S A} (R : relation S) `{!Reflexive R} E (a : A) :
  within R E (ret a).
Proof. intros s. by split. Qed.

Lemma within_throw {S A} (R : relation S) `{!Reflexive R}
    (E : option error → Prop) e :
  E (Some e) → within R E (@throw S A e).
Proof. intros He s. by split. Qed.

Lemma within_weaken {S A} (R : relation S) (E E' : option error → Prop)
    (m : M S A) :
  (∀ o, E o → E' o) → within R E m → within R E' m.
Proof.
  intros HE Hm s. specialize (Hm s). destruct Hm as [? Ho].
  split; [done|]. destruct (m s).1; auto.
Qed.

Lemma within_bind {S A B} (R : relation S) `{!Transitive R} E
    (m : M S A) (k : A → M S B) :
  within R E m → (∀ a, within R E (k a)) → within R E (bind m k).
Proof.
  intros Hm Hk s. specialize (Hm s). unfold bind.
  destruct (m s) as [[a|e|] s1]; cbn in *; [|done..].
  destruct Hm as [Hm _]. specialize (Hk a s1).
  destruct (k a s1) as [o s2]; cbn in *. destruct Hk as [Hk ?].
  split; [by etrans|done].
Qed.

Lemma within_try_catch {S A} (R : relation S) `{!Transitive R} E E'
    (m : M S A) (h : error → M S A) :
  within R E' m →
  (E' None → E None) →
  (∀ e, E' (Some e) → within R E (h e)) →
  within R E (try_catch m h).
Proof.
  intros Hm Hnone Hh s. specialize (Hm s). unfold try_catch.
  destruct (m s) as [[a|e|] s1]; cbn in *; destruct Hm as [Hm He].
  - done.
  - specialize (Hh e He s1). destruct (h e s1) as [o s2]; cbn in *.
    destruct Hh as [Hh ?]. split; [by etrans|done].
  - split; [done|by apply Hnone].
Qed.

Lemma within_relax {S A} (R R' : relation S) E (m : M S A) :
  (∀ s s', R s s' → R' s s') → within R E m → within R' E m.
Proof. intros HR Hm s. destruct (Hm s). split; auto. Qed.

Global Instance same_disk_preorder : PreOrder same_disk.
Proof.
  split; [by intros w|]. intros w1 w2 w3. unfold same_disk. congruence.
Qed.

Global Instance listed_only_preorder : PreOrder listed_only.
Proof.
  split.
  - intros w. split; [done|]. exists []. by rewrite app_nil_r.
  - intros w1 w2 w3 [Hd1 (t1 & Ht1 & Hl1)] [Hd2 (t2 & Ht2 & Hl2)].
    split; [congruence|]. exists (t1 ++ t2).
    rewrite Ht2, Ht1, app_assoc. split; [done|by apply Forall_app].
Qed.

Global Instance on_world_preorder R `{!PreOrder R} : PreOrder (on_world R).
Proof.
  split; [by intros s; unfold on_world|].
  intros s1 s2 s3. unfold on_world. by etrans.
Qed.

Lemma listed_only_same_disk w w' : listed_only w w' → same_disk w w'.
Proof. by intros [? _]. Qed.

Lemma listed_only_step w c :
  listing_call c → listed_only w (World (w_disk w) (w_trace w ++ [c])).
Proof.
  intros Hc. split; [done|]. exists [c]. split; [done|]. by constructor.
Qed.

(** The calls that read. *)

Section ReadFrames.
Variable proc : Process.

Lemma within_validatePath E requestedPath :
  (∀ e, denial e → E (Some e)) →
  within listed_only E (validatePath proc requestedPath).
Proof.
  intros HE w. rewrite validatePath_unfold. cbn zeta. unfold parent_check.
  assert (∀ t, Forall listing_call t → listed_only w (traced w t)) as Ht.
  { intros t Hall. split; [done|]. by exists t. }
  repeat (match goal with
          | |- context [if ?b then _ else _] => destruct b
          | |- context [match ?x with Some _ => _ | None => _ end] => destruct x
          end; cbn);
    (split; [first [reflexivity|apply Ht; by repeat constructor]
            |first [done|by apply HE]]).
Qed.

Lemma within_readdir E p :
  (∀ e, access_error e → E (Some e)) →
  within listed_only E (Fs.readdir (cwd proc) p).
Proof.
  intros HE w. unfold Fs.readdir, bind, Fs.log, Fs.on_disk. cbn.
  split; [by apply listed_only_step|].
  destruct (Fs.resolve _ _ _) as [r|]; [|by apply HE].
  destruct (Fs.node_at _ r) as [[]|]; first [done|by apply HE].
Qed.

Lemma within_readFile E p :
  (∀ e, access_error e → E (Some e)) →
  within same_disk E (Fs.readFile (cwd proc) p).
Proof.
  intros HE w. unfold Fs.readFile, bind, Fs.log, Fs.on_disk. cbn.
  split; [done|].
  destruct (Fs.resolve _ _ _) as [r|]; [|by apply HE].
  destruct (_ !! r) as [[]|]; first [done|by apply HE].
Qed.
End ReadFrames.

(** The calls that write. *)

Lemma kept_refl o : kept o o.
Proof. by left. Qed.

Lemma kept_trans o1 o2 o3 : kept o1 o2 → kept o2 o3 → kept o1 o3.
Proof.
  unfold kept.
  intros [->|[(c & -> & H1)|[-> ->]]] [->|[(c' & -> & H2)|[-> H2]]];
    try (by eauto 8); try done.
Qed.

Global Instance grows_preorder : PreOrder grows.
Proof.
  split.
  - intros w k. apply kept_refl.
  - intros w1 w2 w3 H1 H2 k. by eapply kept_trans.
Qed.

Lemma same_disk_grows w w' : same_disk w w' → grows w w'.
Proof. intros H k. rewrite H. apply kept_refl. Qed.

Lemma listed_only_grows w w' : listed_only w w' → grows w w'.
Proof. intros [H _]. by apply same_disk_grows. Qed.

Lemma kept_insert_file (d : disk) (r k : list string) (content : string) :
  (d !! r = None ∨ ∃ c0, d !! r = Some (File c0)) →
  kept (d !! k) (<[r := File content]> d !! k).
Proof.
  intros Hr. destruct (decide (r = k)) as [->|Hne].
  - rewrite lookup_insert_eq. right; left. by exists content.
  - rewrite lookup_insert_ne by done. apply kept_refl.
Qed.

Lemma kept_insert_dir (d : disk) (r k : list string) :
  d !! r = None → kept (d !! k) (<[r := Dir]> d !! k).
Proof.
  intros Hr. destruct (decide (r = k)) as [->|Hne].
  - rewrite lookup_insert_eq. right; right. done.
  - rewrite lookup_insert_ne by done. apply kept_refl.
Qed.

Lemma mkdir_from_kept (comps : list string) :
  ∀ (d d' : disk) (cur : list string),
    Fs.mkdir_from d cur comps = Some d' →
    ∀ k, kept (d !! k) (d' !! k).
Proof.
  induction comps as [|c rest IH]; intros d d' cur; cbn [Fs.mkdir_from].
  - intros [= ->] k. apply kept_refl.
  - repeat case_decide; [by apply IH..|].
    destruct (d !! (cur ++ [c])) as [[content| |target]|] eqn:Hl.
    + done.
    + apply IH.
    + destruct (Fs.walk Fs.MAXSYMLINKS d cur [c]) as [r|]; [|done].
      destruct (Fs.node_at d r) as [[]|]; try done. apply IH.
    + intros Hm k. eapply kept_trans; [|by eapply IH].
      by apply kept_insert_dir.
Qed.

Section WriteFrames.
Variable proc : Process.

Lemma within_writeFile E p content :
  (∀ e, access_error e → E (Some e)) →
  within grows E (Fs.writeFile (cwd proc) p content).
Proof.
  intros HE w. unfold Fs.writeFile, bind, Fs.log, Fs.set_disk. cbn.
  assert (grows w (World (w_disk w) (w_trace w ++ [WriteFile p content])))
    as Hsame by (by apply same_disk_grows).
  destruct (Fs.resolve _ _ p) as [r|].
  - destruct (_ !! r) as [[c0| |]|] eqn:Hr; cbn;
      try (split; [done|by apply HE]).
    split; [|done]. intros k. cbn. apply kept_insert_file. eauto.
  - destruct (reverse _) as [|base ?]; [split; [done|by apply HE]|].
    destruct (Fs.resolve _ _ _) as [rp|]; [|split; [done|by apply HE]].
    destruct (Fs.node_at _ rp) as [[]|]; try (split; [done|by apply HE]).
    destruct (_ !! (rp ++ [base])) eqn:Hb; [split; [done|by apply HE]|].
    split; [|done]. intros k. cbn. apply kept_insert_file. eauto.
Qed.

Lemma within_access E p :
  (∀ e, access_error e → E (Some e)) →
  within same_disk E (Fs.access (cwd proc) p).
Proof.
  intros HE w. unfold Fs.access, bind, Fs.log, Fs.on_disk. cbn.
  split; [done|]. destruct (Fs.resolve _ _ _); [done|by apply HE].
Qed.

Lemma within_mkdir E p :
  (∀ e, access_error e → E (Some e)) →
  within grows E (Fs.mkdir (cwd proc) p).
Proof.
  intros HE w. unfold Fs.mkdir, bind, Fs.log, Fs.set_disk. cbn.
  destruct (Fs.mkdir_from _ _ _) as [d'|] eqn:Hm; cbn.
  - split; [|done]. intros k. cbn. by eapply mkdir_from_kept.
  - split; [by apply same_disk_grows|by apply HE].
Qed.

Lemma within_ensureDirectory E dirPath :
  (∀ e, access_error e → E (Some e)) →
  within grows E (ensureDirectory proc dirPath).
Proof.
  intros HE. unfold ensureDirectory.
  apply within_try_catch with (E' := failing False access_error).
  - apply _.
  - eapply within_relax; [apply same_disk_grows|]. by apply within_access.
  - done.
  - intros e _. by apply within_mkdir.
Qed.
End WriteFrames.

(** The functions of the server. *)

Section ProgramFrames.
Variable proc : Process.

Lemma within_read_note E filePath :
  within same_disk E (read_note proc filePath).
Proof.
  unfold read_note.
  apply within_try_catch with (E' := failing False access_error);
    [apply _| |done|intros; apply within_ret; apply _].
  apply within_bind; [apply _| |intros validPath].
  - eapply within_relax; [apply listed_only_same_disk|].
    apply within_validatePath. by intros [].
  - apply within_bind; [apply _|by apply within_readFile|].
    intros content. apply within_ret; apply _.
Qed.

Lemma within_read_all E paths : within same_disk E (read_all proc paths).
Proof.
  induction paths as [|filePath paths IH]; cbn [read_all].
  - apply within_ret; apply _.
  - apply within_bind; [apply _|apply within_read_note|]. intros r.
    apply within_bind; [apply _|apply IH|]. intros rs.
    apply within_ret; apply _.
Qed.

Lemma within_in_world {A} R E (m : M world A) :
  within R E m → within (on_world R) E (in_world m).
Proof.
  intros Hm [w rs]. specialize (Hm w). unfold in_world, on_world. cbn.
  by destruct (m w) as [o w'].
Qed.

Lemma within_push R `{!Reflexive R} E x : within (on_world R) E (push x).
Proof. intros [w rs]. unfold push, on_world. by cbn. Qed.

Lemma within_search_entry E query descend basePath currentPath entry :
  E None →
  (∀ p, within (on_world listed_only) (failing True (λ _, True)) (descend p)) →
  within (on_world listed_only) E
    (search_entry proc query descend basePath currentPath entry).
Proof.
  intros HE Hd. unfold search_entry.
  apply within_try_catch with (E' := failing True (λ _, True));
    [apply _| |done|intros; apply within_ret; apply _].
  apply within_bind; [apply _| |intros _].
  { apply within_in_world. by apply within_validatePath. }
  apply within_bind; [apply _| |intros _].
  { destruct (_ && _); [apply within_push|apply within_ret]; apply _. }
  destruct (isDirectory entry); [apply Hd|apply within_ret; apply _].
Qed.

Lemma within_search_entries E query descend basePath currentPath entries :
  E None →
  (∀ p, within (on_world listed_only) (failing True (λ _, True)) (descend p)) →
  within (on_world listed_only) E
    (search_entries proc query descend basePath currentPath entries).
Proof.
  intros HE Hd. induction entries as [|entry entries IH]; cbn [search_entries].
  - apply within_ret; apply _.
  - apply within_bind; [apply _|by apply within_search_entry|done].
Qed.

Lemma within_search fuel query basePath currentPath :
  within (on_world listed_only) (failing True access_error)
    (search proc fuel query basePath currentPath).
Proof.
  revert currentPath. induction fuel as [|fuel IH]; intros currentPath.
  - intros s. cbn. split; [reflexivity|done].
  - cbn [search]. apply within_bind; [apply _| |intros entries].
    + apply within_in_world. by apply within_readdir.
    + apply within_search_entries; [done|]. intros p.
      eapply within_weaken; [|apply IH]. by intros [].
Qed.

Lemma within_searchNotes fuel query :
  within listed_only (failing True access_error)
    (searchNotes proc fuel query).
Proof.
  intros w. unfold searchNotes. rewrite vaultDirectories_eq.
  cbn [search_all]. unfold bind.
  pose proof (within_search fuel query (vaultDirectories0 proc)
                (vaultDirectories0 proc) (w, [])) as [HR HE].
  destruct (search _ _ _ _ _ _) as [[[]|e|] [w' rs]]; cbn in *; done.
Qed.

Lemma write_tool_spec name :
  write_tool name = true ↔ name = "write_note" ∨ name = "update_note".
Proof.
  unfold write_tool. rewrite orb_true_iff, !bool_decide_eq_true. done.
Qed.

Lemma dispatch_within fuel req :
  within grows
    (failing (tool req = "search_notes") (dispatch_error proc req))
    (dispatch proc fuel req).
Proof.
  unfold dispatch. cbn zeta. fold (write_tool (tool req)).
  destruct (write_tool (tool req) && negb (enableWrite (config proc)))
    eqn:Hgate.
  { apply within_throw; [apply _|].
    apply andb_true_iff in Hgate as [? ?%negb_true_iff].
    by cbn. }
  set (E := failing _ _).
  assert (∀ e, access_error e → tool req ∈ known_tools → E (Some e)) as HE.
  { intros [] He Hk; done. }
  assert (well_shaped (tool req) (args req) = false →
          within grows E (@throw world string (InvalidArguments (tool req))))
    as Hinv.
  { intros. apply within_throw; [apply _|]. by cbn. }
  assert (write_tool (tool req) = true →
          within grows E (@throw world string ExtensionRequired)) as Hext.
  { intros. apply within_throw; [apply _|]. by cbn. }
  destruct (decide (tool req = "read_notes")) as [Hn|Hn1].
  { assert (tool req ∈ known_tools) as Hk by (rewrite Hn; repeat constructor).
    destruct (args req) eqn:Ha; try (apply Hinv; cbn; rewrite ?Hn; done).
    apply within_bind; [apply _| |intros; apply within_ret; apply _].
    eapply within_relax; [apply same_disk_grows|]. apply within_read_all. }
  destruct (decide (tool req = "search_notes")) as [Hn|Hn2].
  { assert (tool req ∈ known_tools) as Hk by (rewrite Hn; repeat constructor).
    destruct (args req) eqn:Ha; try (apply Hinv; cbn; rewrite ?Hn; done).
    apply within_bind; [apply _| |intros; apply within_ret; apply _].
    eapply within_relax; [apply listed_only_grows|].
    eapply within_weaken; [|apply within_searchNotes].
    intros [e|]; [intros; by apply HE|done]. }
  destruct (decide (tool req = "write_note")) as [Hn|Hn3].
  { assert (tool req ∈ known_tools) as Hk by (rewrite Hn; repeat constructor).
    destruct (args req) eqn:Ha; try (apply Hinv; cbn; rewrite ?Hn; done).
    destruct (negb (Js.endsWith _ _)); [apply Hext; by rewrite Hn|].
    apply within_bind; [apply _| |intros validPath].
    { eapply within_relax; [apply listed_only_grows|].
      apply within_validatePath. intros [] ?; by apply HE. }
    apply within_bind; [apply _| |intros _].
    { destruct createDirectories; [|apply within_ret; apply _].
      apply within_ensureDirectory. auto. }
    apply within_bind; [apply _| |intros; apply within_ret; apply _].
    apply within_writeFile. auto. }
  destruct (decide (tool req = "update_note")) as [Hn|Hn4].
  { assert (tool req ∈ known_tools) as Hk by (rewrite Hn; repeat constructor).
    destruct (args req) eqn:Ha; try (apply Hinv; cbn; rewrite ?Hn; done).
    destruct (negb (Js.endsWith _ _)); [apply Hext; by rewrite Hn|].
    apply within_bind; [apply _| |intros validPath].
    { eapply within_relax; [apply listed_only_grows|].
      apply within_validatePath. intros [] ?; by apply HE. }
    apply within_bind; [apply _| |intros finalContent].
    { case_decide; [|apply within_ret; apply _].
      apply within_bind; [apply _| |intros; apply within_ret; apply _].
      eapply within_relax; [apply same_disk_grows|].
      apply within_readFile. auto. }
    apply within_bind; [apply _| |intros; apply within_ret; apply _].
    apply within_writeFile. auto. }
  apply within_throw; [apply _|]. cbn. split; [done|].
  intros Hk. unfold known_tools in Hk.
  repeat (apply elem_of_cons in Hk as [?|Hk]; [done|]).
  by apply elem_of_nil in Hk.
Qed.
End ProgramFrames.

(** ** The request handler *)

Section Gate.
Variable proc : Process.

Lemma callTool_unfold fuel req w :
  callTool proc fuel req w =
  match dispatch proc fuel req w with
  | (Ok t, w') => (Ok {| text := t; isError := false |}, w')
  | (Throw e, w') => (Ok (error_reply e), w')
  | (OutOfFuel, w') => (OutOfFuel, w')
  end.
Proof.
  unfold callTool, try_catch, bind, ret.
  by destruct (dispatch proc fuel req w) as [[t|e|] w'].
Qed.

Lemma dispatch_gate fuel req :
  enableWrite (config proc) = false →
  write_tool (tool req) = true →
  dispatch proc fuel req = throw WriteDisabled.
Proof.
  intros He Hw. unfold dispatch. cbn zeta. fold (write_tool (tool req)).
  by rewrite Hw, He.
Qed.

Lemma dispatch_unknown fuel req :
  tool req ∉ known_tools →
  dispatch proc fuel req = throw (UnknownTool (tool req)).
Proof.
  intros Hk. unfold dispatch. cbn zeta. fold (write_tool (tool req)).
  assert (∀ name, name ∈ known_tools → tool req ≠ name) as Hne.
  { intros name Hin Heq. by rewrite Heq in Hk. }
  assert (write_tool (tool req) = false) as ->.
  { apply not_true_is_false. rewrite write_tool_spec.
    intros [?|?]; eapply Hne; try done; repeat constructor. }
  cbn. rewrite !decide_False; [done|apply Hne; repeat constructor..].
Qed.

(** X2: the write gate: with writing disabled, a call of [write_note] or
    [update_note] is answered with the error of the gate and nothing
    else happens: no call into [fs] is made, whatever the arguments. *)
Theorem write_tools_gated fuel req w :
  enableWrite (config proc) = false →
  write_tool (tool req) = true →
  callTool proc fuel req w = (Ok (error_reply WriteDisabled), w).
Proof.
  intros He Hw. rewrite callTool_unfold. by rewrite dispatch_gate.
Qed.

(** X3: a note that does not end in [.md] is refused by both write tools
    before the path is looked at: the reply is the error of the
    extension and no call into [fs] is made. *)
Theorem write_tools_require_md fuel req path w :
  enableWrite (config proc) = true →
  well_shaped (tool req) (args req) = true →
  note_path (args req) = Some path →
  Js.endsWith path ".md" = false →
  callTool proc fuel req w = (Ok (error_reply ExtensionRequired), w).
Proof.
  intros He Hs Hp Hmd. rewrite callTool_unfold.
  destruct req as [name a]. cbn in *.
  destruct a; try done; apply bool_decide_eq_true in Hs as ->;
    injection Hp as ->.
  - rewrite dispatch_write_note by done. by rewrite Hmd.
  - rewrite dispatch_update_note by done. by rewrite Hmd.
Qed.

(** X4: a name that is none of the four tools is answered with the error
    of the unknown tool, and no call into [fs] is made. *)
Theorem unknown_tool_rejected fuel req w :
  tool req ∉ known_tools →
  callTool proc fuel req w =
    (Ok (error_reply (UnknownTool (tool req))), w).
Proof.
  intros Hk. rewrite callTool_unfold. by rewrite dispatch_unknown.
Qed.

End Gate.

Section Replies.
Variable proc : Process.

Lemma callTool_state fuel req w :
  (callTool proc fuel req w).2 = (dispatch proc fuel req w).2.
Proof.
  rewrite callTool_unfold.
  by destruct (dispatch proc fuel req w) as [[t|e|] w'].
Qed.

(** X6: what a tool call can do to the disk: every location is left as
    it was, or holds a file where there was none or another file, or a
    directory where there was nothing. No call removes an entry,
    replaces a directory or a link, or turns a file into something
    else. *)
Theorem callTool_keeps_entries fuel req w :
  grows w (callTool proc fuel req w).2.
Proof.
  rewrite callTool_state. by destruct (dispatch_within proc fuel req w).
Qed.

Lemma dispatch_read_only fuel req :
  enableWrite (config proc) = false ∨ write_tool (tool req) = false →
  within same_disk (λ _, True) (dispatch proc fuel req).
Proof.
  intros Hro.
  destruct (write_tool (tool req)) eqn:Hw.
  { destruct Hro as [He|?]; [|done]. rewrite dispatch_gate by done.
    by apply within_throw; [apply _|]. }
  apply not_true_iff_false in Hw. rewrite write_tool_spec in Hw.
  unfold dispatch. cbn zeta.
  destruct (_ && _); [by apply within_throw; [apply _|]|].
  destruct (decide (tool req = "read_notes")) as [Hn|Hn1].
  { destruct (args req); try (by apply within_throw; [apply _|]).
    apply within_bind; [apply _| |intros; apply within_ret; apply _].
    apply within_read_all. }
  destruct (decide (tool req = "search_notes")) as [Hn|Hn2].
  { destruct (args req); try (by apply within_throw; [apply _|]).
    apply within_bind; [apply _| |intros; apply within_ret; apply _].
    eapply within_relax; [apply listed_only_same_disk|].
    eapply within_weaken; [|apply within_searchNotes]. done. }
  rewrite !decide_False by tauto.
  by apply within_throw; [apply _|].
Qed.

(** X7: the server is read-only unless it is told otherwise: with
    writing disabled no tool call changes the disk, and with writing
    enabled the calls of the other tools do not change it either. *)
Theorem callTool_read_only fuel req w :
  enableWrite (config proc) = false ∨ write_tool (tool req) = false →
  w_disk (callTool proc fuel req w).2 = w_disk w.
Proof.
  intros Hro. rewrite callTool_state.
  by destruct (dispatch_read_only fuel req Hro w).
Qed.

(** X8: a call of [search_notes] only resolves paths and lists
    directories: it reads no file, and it writes nothing. *)
Theorem search_notes_lists_only fuel req w :
  tool req = "search_notes" →
  listed_only w (callTool proc fuel req w).2.
Proof.
  intros Hn. rewrite callTool_state. destruct req as [name a].
  cbn in Hn. subst name. destruct a; try reflexivity.
  rewrite dispatch_search_notes. cbn zeta.
  pose proof (within_searchNotes proc fuel query w) as [HR _].
  unfold bind. by destruct (searchNotes proc fuel query w) as [[rs|e|] w'].
Qed.

(** X9: no exception leaves the handler, and a call returns a reply once
    the budget of a search exceeds the depth of the disk; the calls of
    the other tools need no budget. *)
Theorem callTool_replies fuel req w :
  (tool req = "search_notes" →
   path.isAbsolute (cwd proc) = true ∧ depth (w_disk w) < fuel) →
  ∃ r, (callTool proc fuel req w).1 = Ok r.
Proof.
  intros Hs. rewrite callTool_unfold.
  pose proof (dispatch_within proc fuel req w) as [_ HE].
  destruct (dispatch proc fuel req w) as [[t|e|] w'] eqn:Hd;
    [by eexists..|].
  cbn in HE. destruct (Hs HE) as [Hcwd Hfuel]. exfalso.
  revert Hd. destruct req as [name a]. cbn in HE. subst name.
  destruct a; try done.
  rewrite dispatch_search_notes. cbn zeta. unfold bind.
  pose proof (searchNotes_terminates proc fuel query w Hcwd Hfuel) as Hnt.
  by destruct (searchNotes proc fuel query w) as [[rs|e|] w1].
Qed.

(** X10: the error replies of a tool: the text is the message of an
    error that the tool can end in. The gate's error comes only from a
    write tool with writing disabled, the unknown-tool error only for a
    name that is none of the four, the errors of path validation and of
    [fs] only from the four tools; and no reply ever carries the errors
    of the symbolic link or of the parent outside the vault. *)
Theorem callTool_error_replies fuel req w r :
  (callTool proc fuel req w).1 = Ok r →
  isError r = true →
  ∃ e, r = error_reply e ∧ dispatch_error proc req e.
Proof.
  rewrite callTool_unfold.
  pose proof (dispatch_within proc fuel req w) as [_ HE].
  destruct (dispatch proc fuel req w) as [[t|e|] w']; cbn.
  - by intros [= <-].
  - intros [= <-] _. by exists e.
  - done.
Qed.

(** X11: the tools that are listed are the tools that can be called: a
    name is in the reply of [ListTools] exactly when a call of it is
    never turned away by the gate or as unknown. *)
Theorem listed_tools_callable req :
  tool req ∈ Tool.name <$> listTools (config proc) ↔
  ∀ fuel w e, (dispatch proc fuel req w).1 = Throw e →
              e ≠ WriteDisabled ∧ e ≠ UnknownTool (tool req).
Proof.
  assert (tool req ∈ Tool.name <$> listTools (config proc) ↔
          tool req ∈ known_tools ∧
          (write_tool (tool req) = true → enableWrite (config proc) = true))
    as ->.
  { unfold listTools, known_tools. rewrite write_tool_spec.
    destruct (enableWrite (config proc)); cbn;
      rewrite !elem_of_cons, elem_of_nil; [tauto|].
    split.
    - intros [->|[->|[]]]; (split; [tauto|]); intros [?|?]; done.
    - intros [[?|[?|[?|[?|[]]]]] Hw]; try tauto;
        exfalso; assert (false = true) by tauto; done. }
  split.
  - intros [Hk Hw] fuel w e Hd.
    pose proof (dispatch_within proc fuel req w) as [_ HE].
    rewrite Hd in HE. cbn in HE. split; intros ->; cbn in HE.
    + destruct HE as [Hwt He]. rewrite Hw in He; done.
    + by destruct HE.
  - intros Hd.
    destruct (decide (tool req ∈ known_tools)) as [Hk|Hk]; cycle 1.
    { destruct (Hd 0 (World ∅ []) (UnknownTool (tool req))) as [_ []];
        [|done]. by rewrite dispatch_unknown. }
    split; [done|]. intros Hw.
    destruct (enableWrite (config proc)) eqn:He; [done|].
    destruct (Hd 0 (World ∅ []) WriteDisabled) as [[] _]; [|done].
    by rewrite dispatch_gate.
Qed.
End Replies.

(** ** [read_notes] *)

Section ReadNotes.
Variable proc : Process.

Lemma reader_ret {A} (a : A) : reader (ret a).
Proof. intros d. exists (Ok a), []. intros tr. by rewrite app_nil_r. Qed.

Lemma reader_bind {A B} (m : M world A) (k : A → M world B) :
  reader m → (∀ a, reader (k a)) → reader (bind m k).
Proof.
  intros Hm Hk d. destruct (Hm d) as (o & t & H).
  destruct o as [a|e|].
  - destruct (Hk a d) as (o' & t' & H'). exists o', (t ++ t'). intros tr.
    unfold bind. by rewrite H, H', app_assoc.
  - exists (Throw e), t. intros tr. unfold bind. by rewrite H.
  - exists OutOfFuel, t. intros tr. unfold bind. by rewrite H.
Qed.

Lemma reader_try_catch {A} (m : M world A) (h : error → M world A) :
  reader m → (∀ e, reader (h e)) → reader (try_catch m h).
Proof.
  intros Hm Hh d. destruct (Hm d) as (o & t & H).
  destruct o as [a|e|].
  - exists (Ok a), t. intros tr. unfold try_catch. by rewrite H.
  - destruct (Hh e d) as (o' & t' & H'). exists o', (t ++ t'). intros tr.
    unfold try_catch. by rewrite H, H', app_assoc.
  - exists OutOfFuel, t. intros tr. unfold try_catch. by rewrite H.
Qed.

Lemma reader_readFile p : reader (Fs.readFile (cwd proc) p).
Proof.
  intros d.
  exists (Fs.readFile (cwd proc) p (World d [])).1, [ReadFile p]. intros tr.
  unfold Fs.readFile, bind, Fs.log, Fs.on_disk. cbn.
  destruct (Fs.resolve (cwd proc) d p) as [r|]; [|reflexivity].
  destruct (d !! r) as [[]|]; reflexivity.
Qed.

Lemma reader_read_note filePath : reader (read_note proc filePath).
Proof.
  unfold read_note. apply reader_try_catch; [|intros; apply reader_ret].
  apply reader_bind; [apply reader_validatePath|]. intros validPath.
  apply reader_bind; [apply reader_readFile|]. intros content.
  apply reader_ret.
Qed.

(** The slot of [filePath] in the reply of [read_notes] on the disk
    [d]: what reading that note alone gives. *)
Lemma read_note_slot (filePath : string) (d : disk) :
  ∃ slot, ∀ tr, (read_note proc filePath (World d tr)).1 = Ok slot.
Proof.
  destruct (reader_read_note filePath d) as (o & t & H).
  pose proof (within_read_note proc (λ _, False) filePath (World d []))
    as [_ HE].
  rewrite H in HE. cbn in HE. destruct o as [slot| |]; try done.
  exists slot. intros tr. by rewrite H.
Qed.

(** X12: [read_notes] answers with one slot for each path, in the order
    of the paths, and each slot is what reading that path alone gives on
    the same disk, text of the failure included: a path that is denied
    or cannot be read does not affect the slots of the others, and the
    call as a whole is not an error. *)
Theorem read_notes_slots fuel paths w :
  ∃ slots,
    Forall2 (λ filePath slot,
               ∀ tr, (read_note proc filePath (World (w_disk w) tr)).1 =
                     Ok slot) paths slots ∧
    (callTool proc fuel
       {| tool := "read_notes"; args := ReadNotesArgs paths |} w).1 =
      Ok {| text := Js.join (LF +:+ "---" +:+ LF) slots; isError := false |}.
Proof.
  assert (∃ slots,
            Forall2 (λ filePath slot,
                       ∀ tr, (read_note proc filePath
                                (World (w_disk w) tr)).1 = Ok slot)
                    paths slots ∧
            (read_all proc paths w).1 = Ok slots) as (slots & Hall & Hr).
  { revert w. induction paths as [|filePath paths IH]; intros w.
    - exists []. by split; [constructor|].
    - destruct (read_note_slot filePath (w_disk w)) as (slot & Hslot).
      pose proof (within_read_note proc (λ _, True) filePath w) as [Hd _].
      cbn [read_all]. unfold bind.
      destruct w as [d tr]. specialize (Hslot tr) as Hs. cbn [w_disk] in *.
      destruct (read_note proc filePath (World d tr)) as [o w1].
      cbn in Hs, Hd. subst o. unfold same_disk in Hd. cbn in Hd.
      destruct (IH w1) as (slots & Hall & Hr). rewrite Hd in Hall.
      exists (slot :: slots). split; [by constructor|].
      destruct (read_all proc paths w1) as [o w2]. cbn in Hr. by subst o. }
  exists slots. split; [done|].
  rewrite callTool_unfold.
  change (dispatch proc fuel _) with
    (let! results := read_all proc paths in
     ret (Js.join (LF +:+ "---" +:+ LF) results)).
  unfold bind. destruct (read_all proc paths w) as [o w']. cbn in Hr.
  by subst o.
Qed.
End ReadNotes.

(** ** Accepted paths *)

Section Accepted.
Variable proc : Process.

(** What [validatePath] lets through, read off its decision tree. *)
Lemma validatePath_Ok requestedPath w validPath w' :
  validatePath proc requestedPath w = (Ok validPath, w') →
  let absolute := absolute_of proc requestedPath in
  hidden requestedPath = false ∧
  allowed proc absolute = true ∧
  allowed proc validPath = true ∧
  ((∃ r, Fs.resolve (cwd proc) (w_disk w) absolute = Some r ∧
         validPath = Fs.render r) ∨
   (∃ rp, Fs.resolve (cwd proc) (w_disk w) (path.dirname absolute) = Some rp ∧
          allowed proc (Fs.render rp) = true ∧
          validPath = absolute)).
Proof.
  rewrite validatePath_unfold. cbn zeta. unfold parent_check.
  destruct (hidden requestedPath); [done|].
  destruct (allowed proc (absolute_of proc requestedPath)) eqn:Ha; [|done].
  assert ((match Fs.resolve (cwd proc) (w_disk w)
                     (path.dirname (absolute_of proc requestedPath)) with
             | Some rp =>
                 if allowed proc (Fs.render rp)
                 then Ok (absolute_of proc requestedPath)
                 else Throw (ParentMissing
                               (path.dirname (absolute_of proc requestedPath)))
             | None => Throw (ParentMissing
                                (path.dirname (absolute_of proc requestedPath)))
             end) = Ok validPath →
            ∃ rp, Fs.resolve (cwd proc) (w_disk w)
                    (path.dirname (absolute_of proc requestedPath)) = Some rp ∧
                  allowed proc (Fs.render rp) = true ∧
                  validPath = absolute_of proc requestedPath) as Hparent.
  { destruct (Fs.resolve _ _ (path.dirname _)) as [rp|]; [|done].
    destruct (allowed proc (Fs.render rp)) eqn:Hrp; [|done].
    intros [= <-]. by exists rp. }
  destruct (Fs.resolve _ _ (absolute_of _ _)) as [r|] eqn:Hr.
  - destruct (allowed proc (Fs.render r)) eqn:Har.
    + intros [= <- _]. split_and!; try done. left. by exists r.
    + intros [= Hp _]. destruct (Hparent Hp) as (rp & ? & ? & ->).
      split_and!; try done. right. by exists rp.
  - intros [= Hp _]. destruct (Hparent Hp) as (rp & ? & ? & ->).
    split_and!; try done. right. by exists rp.
Qed.


(** X14: [append] and [prepend] need the old content: when the note
    cannot be read, the reply is the error of the read, and nothing is
    written. *)
Theorem update_note_unreadable fuel path content mode w validPath w1 e :
  enableWrite (config proc) = true →
  Js.endsWith path ".md" = true →
  mode ≠ replace →
  validatePath proc (path.join [vaultDirectories0 proc; path]) w
    = (Ok validPath, w1) →
  (Fs.readFile (cwd proc) validPath w1).1 = Throw e →
  callTool proc fuel
    {| tool := "update_note"; args := UpdateNoteArgs path content mode |} w
  = (Ok (error_reply e),
     World (w_disk w) (w_trace w1 ++ [ReadFile validPath])).
Proof.
  intros He Hmd Hmode Hv Hread.
  rewrite callTool_unfold, dispatch_update_note by done.
  rewrite Hmd. cbn [negb]. unfold bind at 1. rewrite Hv.
  rewrite decide_True by done. unfold bind.
  pose proof (validatePath_disk proc
                (path.join [vaultDirectories0 proc; path]) w) as Hd.
  rewrite Hv in Hd. cbn in Hd. rewrite <- Hd.
  revert Hread. unfold Fs.readFile, bind, Fs.log, Fs.on_disk. cbn.
  destruct (Fs.resolve _ _ _) as [r|]; [|by intros [= <-]].
  destruct (_ !! r) as [[]|]; try done; by intros [= <-].
Qed.
End Accepted.

(** ** Case folding and the stored root *)

Section CaseFolding.

Lemma lower_ascii_idem c : Js.lower_ascii (Js.lower_ascii c) = Js.lower_ascii c.
Proof. by destruct c as [[] [] [] [] [] [] [] []]. Qed.

Lemma toLowerCase_idem s : Js.toLowerCase (Js.toLowerCase s) = Js.toLowerCase s.
Proof.
  induction s as [|c s IH]; [done|]. cbn. by rewrite lower_ascii_idem, IH.
Qed.

Lemma toLowerCase_empty s : Js.toLowerCase s = "" ↔ s = "".
Proof. by destruct s. Qed.

Lemma toLowerCase_dot s : Js.toLowerCase s = "." ↔ s = ".".
Proof.
  destruct s as [|c [|c' s]]; try done. cbn. split; intros [= H].
  - apply lower_ascii_dot in H as ->. done.
  - by subst.
Qed.

Lemma toLowerCase_dotdot s : Js.toLowerCase s = ".." ↔ s = "..".
Proof.
  destruct s as [|c [|c' [|c'' s]]]; try done. cbn. split.
  - intros [= H H']. apply lower_ascii_dot in H as ->.
    apply lower_ascii_dot in H' as ->. done.
  - by intros [= -> ->].
Qed.

Lemma toLowerCase_slash s : Js.toLowerCase s = "/" ↔ s = "/".
Proof.
  destruct s as [|c [|c' s]]; try done. cbn. split; intros [= H].
  - apply lower_ascii_slash in H as ->. done.
  - by subst.
Qed.

Lemma normalizeSegments_lower b segs :
  ∀ acc,
    path.normalizeSegments b (Js.toLowerCase <$> acc)
      (Js.toLowerCase <$> segs) =
    Js.toLowerCase <$> path.normalizeSegments b acc segs.
Proof.
  induction segs as [|seg segs IH]; intros acc; cbn.
  - by rewrite map_rev.
  - destruct (decide (seg = "" ∨ seg = ".")) as [H|H].
    + rewrite decide_True; [apply IH|].
      by rewrite toLowerCase_empty, toLowerCase_dot.
    + rewrite decide_False
        by (by rewrite toLowerCase_empty, toLowerCase_dot).
      destruct (decide (seg = "..")) as [H'|H'].
      * rewrite decide_True by (by rewrite toLowerCase_dotdot).
        destruct acc as [|last acc]; cbn.
        -- destruct b; [apply (IH [".."])|apply (IH [])].
        -- destruct (decide (last = "..")) as [Hl|Hl].
           ++ rewrite decide_True by (by rewrite toLowerCase_dotdot).
              destruct b; [apply (IH (".." :: last :: acc))|].
              apply (IH (last :: acc)).
           ++ rewrite decide_False by (by rewrite toLowerCase_dotdot).
              apply IH.
      * rewrite decide_False by (by rewrite toLowerCase_dotdot).
        apply (IH (seg :: acc)).
Qed.

Lemma isAbsolute_cons c p :
  path.isAbsolute (String c p) = bool_decide (c = "/"%char).
Proof.
  unfold path.isAbsolute, Js.startsWith. cbn [String.prefix].
  destruct (ascii_dec "/" c) as [<-|Hne].
  - by destruct p.
  - by rewrite bool_decide_eq_false_2.
Qed.

Lemma isAbsolute_lower p :
  path.isAbsolute (Js.toLowerCase p) = path.isAbsolute p.
Proof.
  destruct p as [|c p]; [done|]. cbn [Js.toLowerCase].
  rewrite !isAbsolute_cons. apply bool_decide_ext, lower_ascii_slash.
Qed.

Lemma endsWith_lower s :
  Js.endsWith (Js.toLowerCase s) "/" = Js.endsWith s "/".
Proof.
  induction s as [|c s IH]; [done|].
  cbn [Js.toLowerCase Js.endsWith]. rewrite IH. f_equal.
  apply bool_decide_ext.
  change (String (Js.lower_ascii c) (Js.toLowerCase s))
    with (Js.toLowerCase (String c s)).
  apply toLowerCase_slash.
Qed.

Lemma normalize_lower p :
  path.normalize (Js.toLowerCase p) = Js.toLowerCase (path.normalize p).
Proof.
  unfold path.normalize.
  destruct (decide (p = "")) as [->|Hp]; [done|].
  rewrite decide_False by (by rewrite toLowerCase_empty).
  rewrite isAbsolute_lower, endsWith_lower.
  unfold path.normalizeString.
  rewrite toLowerCase_split.
  rewrite (normalizeSegments_lower _ _ []), <- toLowerCase_join.
  set (p' := Js.join "/" _).
  destruct (decide (p' = "")) as [Hp'|Hp'].
  - rewrite decide_True by (by rewrite toLowerCase_empty).
    by destruct (path.isAbsolute p), (Js.endsWith p "/").
  - rewrite decide_False by (by rewrite toLowerCase_empty).
    destruct (path.isAbsolute p), (Js.endsWith p "/");
      by rewrite ?toLowerCase_app.
Qed.

(** X15: the prefix check cannot tell two paths apart that differ only
    in the case of their letters: they have the same normalized form. *)
Theorem normalizePath_ignores_case proc p q :
  Js.toLowerCase p = Js.toLowerCase q →
  normalizePath p = normalizePath q ∧ allowed proc p = allowed proc q.
Proof.
  intros Hpq.
  assert (normalizePath p = normalizePath q) as Hn;
    [|by unfold allowed; rewrite Hn].
  unfold normalizePath.
  rewrite <- (toLowerCase_idem (path.normalize p)),
          <- (toLowerCase_idem (path.normalize q)).
  by rewrite <- !normalize_lower, Hpq.
Qed.

Lemma startsWith_refl s : Js.startsWith s s = true.
Proof.
  unfold Js.startsWith. induction s as [|c s IH]; [done|].
  cbn [String.prefix]. by destruct (ascii_dec c c).
Qed.

(** X16: the stored root is a fixed point of [normalizePath]: an
    absolute path that is its own normalized form, and that passes its
    own prefix check. *)
Theorem root_normalized proc :
  path.isAbsolute (cwd proc) = true →
  path.isAbsolute (vaultDirectories0 proc) = true ∧
  normalizePath (vaultDirectories0 proc) = vaultDirectories0 proc ∧
  allowed proc (vaultDirectories0 proc) = true.
Proof.
  intros Hcwd.
  destruct (vaultDirectories0_canonical proc Hcwd) as (L & HL & Hv).
  assert (normalizePath (vaultDirectories0 proc) = vaultDirectories0 proc)
    as Hn.
  { transitivity (Js.toLowerCase (vaultDirectories0 proc)).
    - unfold normalizePath. rewrite HL. by rewrite normalize_render.
    - apply toLowerCase_idem. }
  split_and!; [rewrite HL; apply isAbsolute_render|done|].
  unfold allowed. rewrite Hn. unfold inAllowedDirectories.
  rewrite vaultDirectories_eq. cbn. rewrite orb_false_r.
  apply startsWith_refl.
Qed.
End CaseFolding.

(** ** Hidden entries in a search *)

Section DotEntries.
Variable proc : Process.

Lemma hidden_render L n :
  Forall Fs.valid_name L → Fs.valid_name n →
  Js.startsWith n "." = true →
  hidden (Fs.render (L ++ [n])) = true.
Proof.
  intros HL Hn Hdot. apply hidden_segment with n; [|done].
  unfold Fs.render.
  change ("/" +:+ Js.join "/" (L ++ [n]))
    with (String path.sep (Js.join "/" (L ++ [n]))).
  cbn [Js.split]. rewrite Ascii.eqb_refl.
  rewrite split_join.
  - apply elem_of_cons. right. apply elem_of_app. right. constructor.
  - by destruct L.
  - apply Forall_app. split.
    + by eapply Forall_impl; [|apply valid_slash_free].
    + constructor; [by apply valid_slash_free|constructor].
Qed.

(** X17: an entry whose name starts with a dot is passed over by the
    loop of [search] at once: below a canonical directory its path is
    denied as hidden before any call into [fs], so it is neither
    reported nor descended into, and the state of the search is as
    before. *)
Theorem search_skips_dot_entry
    query descend basePath currentPath entry s :
  canonical currentPath →
  Fs.valid_name (name entry) →
  Js.startsWith (name entry) "." = true →
  search_entry proc query descend basePath currentPath entry s = (Ok (), s).
Proof.
  intros (L & -> & HL) Hn Hdot.
  unfold search_entry, try_catch, bind, in_world.
  rewrite join_canonical by done.
  rewrite validatePath_hidden by (by apply hidden_render).
  by destruct s.
Qed.
End DotEntries.

(** ** The check at start-up *)

Section Startup.



Lemma expandHome_absolute proc p :
  path.isAbsolute p = true → expandHome proc p = p.
Proof.
  destruct p as [|c p]; [done|]. rewrite isAbsolute_cons.
  intros ->%bool_decide_eq_true. unfold expandHome.
  assert (Js.startsWith (String "/" p) "~/" = false) as -> by done.
  by rewrite bool_decide_eq_false_2.
Qed.


End Startup.

(** Without that the check says nothing about the searches: started as
    [mcp-obsidian /Vault], the server passes the check and then fails
    every search, for it lists [/vault]. *)
Example startup_misses_case :
  startup Vault_proc Vault_disk = true ∧
  (callTool Vault_proc 3
     {| tool := "search_notes"; args := SearchNotesArgs "" |} Vault_world).1 =
    Ok (error_reply (IoError "scandir" "/vault")).
Proof. split; vm_compute; reflexivity. Qed.

(** ** Where resolution ends *)

Section Settled.
Variable cwd : string.

Lemma settled_nil (d : disk) : settled d [].
Proof. done. Qed.

Lemma settled_snoc (d : disk) (r : list string) (c : string) :
  settled d (r ++ [c]) ↔
  Fs.valid_name c ∧ Fs.node_at d r = Some Dir ∧
  (∃ nd, d !! (r ++ [c]) = Some nd ∧ ∀ t, nd ≠ Symlink t) ∧ settled d r.
Proof.
  unfold settled. rewrite reverse_snoc. cbn [settled_rev].
  by rewrite reverse_involutive.
Qed.

Lemma settled_removelast (d : disk) (r : list string) :
  settled d r → settled d (removelast r).
Proof.
  destruct r as [|c r _] using rev_ind; [done|].
  rewrite removelast_last. rewrite settled_snoc. tauto.
Qed.

Lemma segments_component p : Forall component (Fs.segments p).
Proof.
  unfold Fs.segments. apply Forall_forall. intros seg Hin.
  apply list_elem_of_filter in Hin as [Hne Hin]. split; [done|].
  pose proof (split_slash_free p) as Hall.
  by eapply Forall_forall in Hall.
Qed.

(** Resolution ends at a settled location. *)
Lemma walk_settled (links : nat) (d : disk) :
  ∀ comps cur r,
    Forall component comps → settled d cur →
    Fs.walk links d cur comps = Some r → settled d r.
Proof.
  induction links as [|links IHl];
    (induction comps as [|c rest IH]; intros cur r Hc Hs;
     [rewrite walk_nil; by intros [= <-]|]).
  all: apply Forall_cons in Hc as [[Hc1 Hc2] Hrest].
  all: rewrite walk_cons.
  all: destruct (Fs.node_at d cur) as [[]|] eqn:Hcur; try done.
  all: destruct (decide (c = ".")) as [?|Hdot]; [by apply IH|].
  all: destruct (decide (c = "..")) as [?|Hdd];
         [apply IH; [done|by apply settled_removelast]|].
  all: destruct (d !! (cur ++ [c])) as [nd|] eqn:Hl; [|done].
  all: assert ((∀ t, nd ≠ Symlink t) → settled d (cur ++ [c])) as Hnext
         by (intros ?; apply settled_snoc; split_and!; eauto; done).
  all: destruct nd as [content| |target]; try (apply IH; [done|by apply Hnext]).
  - done.
  - apply IHl.
    + apply Forall_app. split; [apply segments_component|done].
    + by destruct (path.isAbsolute target).
Qed.

Lemma resolve_settled (d : disk) (p : string) (r : list string) :
  Fs.resolve cwd d p = Some r → settled d r.
Proof.
  unfold Fs.resolve. apply walk_settled; [|done].
  destruct (path.isAbsolute p); [apply segments_component|].
  apply Forall_app. split; apply segments_component.
Qed.

Lemma settled_valid (d : disk) (r : list string) :
  settled d r → Forall Fs.valid_name r.
Proof.
  induction r as [|c r IH] using rev_ind; [done|].
  rewrite settled_snoc. intros (Hc & _ & _ & Hr).
  apply Forall_app. split; [by apply IH|by constructor].
Qed.

(** A path that resolves, followed by the name of an entry in it that
    is no link, resolves to that entry. *)
Lemma walk_snoc_node (links : nat) (d : disk) (n : string) (nd : node) :
  n ≠ "." → n ≠ ".." → (∀ t, nd ≠ Symlink t) →
  ∀ comps cur r,
    Fs.walk links d cur comps = Some r →
    Fs.node_at d r = Some Dir →
    d !! (r ++ [n]) = Some nd →
    Fs.walk links d cur (comps ++ [n]) = Some (r ++ [n]).
Proof.
  intros Hn1 Hn2 Hnd. induction links as [|links IHl];
    (induction comps as [|c rest IH]; intros cur r Hw Hr Hl;
     [rewrite walk_nil in Hw; injection Hw as ->;
      cbn [app]; rewrite walk_cons, Hr, !decide_False, Hl by done;
      destruct nd; rewrite ?walk_nil; try done; by destruct (Hnd target)|]).
  all: cbn [app]; rewrite walk_cons in Hw |- *.
  all: destruct (Fs.node_at d cur) as [[]|]; try done.
  all: repeat case_decide; try by apply IH.
  all: destruct (d !! (cur ++ [c])) as [[]|]; try done; try by apply IH.
  rewrite app_assoc. by apply IHl.
Qed.

(** A settled location resolves to itself. *)
Lemma walk_settled_self (d : disk) (r : list string) :
  settled d r → Fs.walk Fs.MAXSYMLINKS d [] r = Some r.
Proof.
  induction r as [|c r IH] using rev_ind; [by rewrite walk_nil|].
  rewrite settled_snoc.
  intros ((_ & Hc1 & Hc2 & _) & Hdir & (nd & Hl & Hnd) & Hr).
  by apply walk_snoc_node with nd; [..|apply IH| |].
Qed.

Lemma resolve_settled_self (d : disk) (r : list string) :
  settled d r → Fs.resolve cwd d (Fs.render r) = Some r.
Proof.
  intros Hs. unfold Fs.resolve.
  rewrite isAbsolute_render, segments_render by (by eapply settled_valid).
  by apply walk_settled_self.
Qed.
End Settled.

(** ** [path.dirname] on canonical paths *)

Section Dirname.

Lemma list_ascii_app (a b : string) :
  list_ascii_of_string (a +:+ b) =
  list_ascii_of_string a ++ list_ascii_of_string b.
Proof.
  induction a as [|c a IH]; [done|]. rewrite string_app_cons. cbn.
  by rewrite IH.
Qed.

Lemma slash_free_chars n :
  slash_free n →
  Forall (λ c, path.is_slash c = false) (list_ascii_of_string n).
Proof.
  unfold slash_free, path.sep, path.is_slash.
  induction n as [|c n IH]; [constructor|]. cbn.
  destruct (Ascii.eqb c "/") eqn:Hc; [done|].
  pose proof (split_not_nil "/" n) as Hnn.
  destruct (Js.split "/" n) as [|seg segs] eqn:Hs; [done|].
  intros [= -> ->]. constructor; [done|]. by apply IH.
Qed.

Lemma drop_while_app f (l r : list ascii) :
  Forall (λ c, f c = true) l →
  path.drop_while f (l ++ r) = path.drop_while f r.
Proof. induction 1 as [|c l Hc _ IH]; [done|]. cbn. by rewrite Hc. Qed.

(** The directory of a canonical path is the path without its last
    name. *)
Lemma dirname_render L n :
  Forall Fs.valid_name L → Fs.valid_name n →
  path.dirname (Fs.render (L ++ [n])) = Fs.render L.
Proof.
  intros HL (Hn1 & _ & _ & Hn4).
  pose proof (slash_free_chars n Hn4) as Hchars.
  assert (∀ tail,
            path.drop_while (λ c, negb (path.is_slash c))
              (path.drop_while path.is_slash
                 (rev (list_ascii_of_string n) ++ tail)) =
            path.drop_while (λ c, negb (path.is_slash c)) tail) as Hdrop.
  { intros tail.
    assert (path.drop_while path.is_slash
              (rev (list_ascii_of_string n) ++ tail) =
            rev (list_ascii_of_string n) ++ tail) as ->.
    { destruct n as [|c n]; [done|].
      destruct (rev (list_ascii_of_string (String c n))) as [|x xs] eqn:E.
      { apply (f_equal (@length _)) in E. rewrite length_rev in E. done. }
      assert (path.is_slash x = false) as Hx.
      { apply Forall_rev in Hchars. rewrite E in Hchars.
        by apply Forall_cons in Hchars as [? _]. }
      cbn. by rewrite Hx. }
    apply drop_while_app. apply Forall_rev.
    eapply Forall_impl; [done|]. cbn. by intros c ->. }
  unfold path.dirname, Fs.render. rewrite join_snoc.
  destruct (decide (L = [])) as [->|Hne].
  - change (list_ascii_of_string ("/" +:+ n))
      with ("/"%char :: list_ascii_of_string n).
    lazy beta iota zeta. rewrite <- (app_nil_r (rev _)), Hdrop. done.
  - change (list_ascii_of_string ("/" +:+ Js.join "/" L +:+ String "/" n))
      with ("/"%char :: list_ascii_of_string (Js.join "/" L +:+ String "/" n)).
    lazy beta iota zeta.
    rewrite list_ascii_app. cbn [list_ascii_of_string].
    rewrite rev_app_distr. cbn [rev]. rewrite <- app_assoc. cbn [app].
    rewrite Hdrop. cbn.
    destruct (exists_last Hne) as (L' & m & ->).
    apply Forall_app in HL as [_ [(Hm & _) _]%Forall_cons].
    pose proof (join_valid_not_empty L' m Hm) as Hj.
    rewrite bool_decide_eq_false_2; cycle 1.
    { intros Hrev. apply Hj.
      apply (f_equal (@rev _)) in Hrev. rewrite rev_involutive in Hrev.
      rewrite <- (string_of_list_ascii_of_string (Js.join "/" (L' ++ [m]))).
      by rewrite Hrev. }
    rewrite rev_involutive.
    by rewrite string_of_list_ascii_of_string.
Qed.
End Dirname.

(** ** [write_note] and its directories *)

Section CreateDirectories.
Variable proc : Process.

(** The directory of a validated path exists. *)
Lemma validatePath_parent_resolves requestedPath w validPath w' :
  validatePath proc requestedPath w = (Ok validPath, w') →
  ∃ rp, Fs.resolve (cwd proc) (w_disk w) (path.dirname validPath) = Some rp.
Proof.
  intros Hv.
  destruct (validatePath_Ok proc _ _ _ _ Hv)
    as (_ & _ & _ & [(r & Hr & ->)|(rp & Hrp & _ & ->)]); [|by exists rp].
  apply resolve_settled in Hr.
  destruct r as [|n r _] using rev_ind; [by exists []|].
  pose proof (settled_valid _ _ Hr) as [Hvr [Hn _]%Forall_cons]%Forall_app.
  apply settled_snoc in Hr as (_ & _ & _ & Hr).
  exists r. rewrite dirname_render by done. by apply resolve_settled_self.
Qed.

Lemma writeFile_disk (p content : string) (d : disk) :
  ∃ o d', ∀ tr, Fs.writeFile (cwd proc) p content (World d tr) =
                (o, World d' (tr ++ [WriteFile p content])).
Proof.
  unfold Fs.writeFile, bind, Fs.log, Fs.set_disk. cbn.
  destruct (Fs.resolve (cwd proc) d p) as [r|].
  - destruct (d !! r) as [[]|]; by eexists _, _.
  - destruct (reverse (Fs.segments p)) as [|base ?]; [by eexists _, _|].
    destruct (Fs.resolve (cwd proc) d (path.dirname p)) as [rp|];
      [|by eexists _, _].
    destruct (Fs.node_at d rp) as [[]|]; try by eexists _, _.
    destruct (d !! (rp ++ [base])); by eexists _, _.
Qed.

(** X19: [createDirectories] makes no difference: [write_note] validates
    the path first, a validated path has a directory that exists, and so
    [ensureDirectory] stops at [access]. The reply and the disk are
    those of the call without the flag, and no [mkdir] is ever
    issued. *)
Theorem write_note_never_creates_directories fuel path content w :
  let call createDirectories :=
    callTool proc fuel
      {| tool := "write_note";
         args := WriteNoteArgs path content createDirectories |} w in
  (call true).1 = (call false).1 ∧
  w_disk (call true).2 = w_disk (call false).2 ∧
  ∃ t, w_trace (call true).2 = w_trace w ++ t ∧ ∀ p, Mkdir p ∉ t.
Proof.
  lazy beta zeta. rewrite !callTool_unfold.
  assert (∀ w : world, ∃ t, w_trace w = w_trace w ++ t ∧ ∀ p, Mkdir p ∉ t)
    as Hsame.
  { intros w0. exists []. rewrite app_nil_r. split; [done|].
    intros p Hin. by apply elem_of_nil in Hin. }
  destruct (enableWrite (config proc)) eqn:He; cycle 1.
  { rewrite !dispatch_gate by done. cbn. auto. }
  rewrite !dispatch_write_note by done.
  destruct (negb (Js.endsWith path ".md")); [cbn; auto|].
  unfold bind.
  pose proof (within_validatePath proc (λ _, True)
                (path.join [vaultDirectories0 proc; path])
                (λ _ _, I) w) as [[Hd (t1 & Ht1 & Hl1)] _].
  destruct (validatePath proc _ w) as [[validPath|e|] w1] eqn:Hv; cycle 1.
  { cbn in *. split_and!; [done..|]. exists t1. split; [done|].
    intros p Hin. eapply Forall_forall in Hl1; [|done]. done. }
  { cbn in *. split_and!; [done..|]. exists t1. split; [done|].
    intros p Hin. eapply Forall_forall in Hl1; [|done]. done. }
  destruct (validatePath_parent_resolves _ _ _ _ Hv) as (rp & Hrp).
  cbn [fst snd] in Hd, Ht1. destruct w1 as [d1 tr1]. cbn in Hd, Ht1.
  subst d1.
  destruct (writeFile_disk validPath content (w_disk w)) as (o & d' & Hw).
  unfold ensureDirectory, try_catch, Fs.access, bind, Fs.log,
    Fs.on_disk, ret. cbn. rewrite Hrp, !Hw.
  destruct o as [[]| |]; cbn; (split_and!; [done..|]);
    exists (t1 ++ [Access (path.dirname validPath);
                   WriteFile validPath content]);
    (split; [by rewrite Ht1, <- !app_assoc|]);
    intros p [Hin|Hin]%elem_of_app;
    try (eapply Forall_forall in Hl1; [|done]; done);
    repeat (apply elem_of_cons in Hin as [?|Hin]; [done|]);
    by apply elem_of_nil in Hin.
Qed.
End CreateDirectories.

(** ** Writing and reading back *)

Section NewNotes.
Variable proc : Process.

(** [validatePath] does not look at the content of files. *)
Lemma validatePath_same_shape (requestedPath : string) (d d' : disk)
    (tr tr' : list syscall) :
  (∀ k, shape (d !! k) = shape (d' !! k)) →
  (validatePath proc requestedPath (World d tr)).1 =
  (validatePath proc requestedPath (World d' tr')).1.
Proof.
  intros Hshape. rewrite !validatePath_unfold. cbn zeta.
  unfold parent_check. cbn [w_disk].
  rewrite <- !(resolve_same_shape (cwd proc) d d') by done.
  repeat (match goal with
          | |- context [if ?b then _ else _] => destruct b
          | |- context [match ?x with Some _ => _ | None => _ end] => destruct x
          end; cbn); done.
Qed.

(** A new entry does not disturb the resolutions that succeeded. *)
Lemma walk_insert_fresh (links : nat) (d : disk) (k : list string)
    (nd : node) :
  d !! k = None →
  ∀ comps cur r,
    Fs.walk links d cur comps = Some r →
    Fs.walk links (<[k := nd]> d) cur comps = Some r.
Proof.
  intros Hk.
  assert (∀ cur, Fs.node_at d cur = Some Dir →
                 Fs.node_at (<[k := nd]> d) cur = Some Dir) as Hnode.
  { intros cur. unfold Fs.node_at. case_decide; [done|].
    intros Hc. rewrite lookup_insert_ne; [done|]. by intros ->; simplify_eq. }
  induction links as [|links IHl];
    (induction comps as [|c rest IH]; intros cur r;
     [by rewrite !walk_nil|]).
  all: rewrite !walk_cons.
  all: destruct (Fs.node_at d cur) as [[]|] eqn:Hcur; try done.
  all: rewrite (Hnode _ Hcur).
  all: repeat case_decide; try apply IH.
  all: destruct (d !! (cur ++ [c])) as [x|] eqn:Hl; [|done].
  all: rewrite lookup_insert_ne, Hl by (by intros ->; simplify_eq).
  all: destruct x; try done; try apply IH.
  apply IHl.
Qed.

Lemma join_absolute root p :
  path.isAbsolute root = true → path.isAbsolute (path.join [root; p]) = true.
Proof.
  intros Hroot. destruct root as [|c root]; [done|].
  rewrite isAbsolute_cons in Hroot. apply bool_decide_eq_true in Hroot as ->.
  unfold path.join. rewrite filter_cons_True by done.
  assert (∀ s, path.isAbsolute (path.normalize (String "/" s)) = true) as Hn.
  { intros s. unfold path.normalize. rewrite decide_False by done.
    rewrite isAbsolute_cons, bool_decide_eq_true_2 by done.
    cbn [negb]. case_decide; [done|]. apply isAbsolute_slash. }
  destruct (decide (p = "")) as [->|Hp].
  - rewrite filter_cons_False, filter_nil by (by intros ?). apply Hn.
  - rewrite filter_cons_True, filter_nil by done.
    rewrite join_pair, string_app_cons. apply Hn.
Qed.

(** The path that a tool validates is checked in canonical form. *)
Lemma absolute_of_note path :
  path.isAbsolute (cwd proc) = true →
  canonical (absolute_of proc (path.join [vaultDirectories0 proc; path])).
Proof.
  intros Hcwd. unfold absolute_of.
  destruct (vaultDirectories0_canonical proc Hcwd) as (L & HL & _).
  assert (path.isAbsolute (path.join [vaultDirectories0 proc; path]) = true)
    as Habs by (apply join_absolute; rewrite HL; apply isAbsolute_render).
  rewrite expandHome_absolute, Habs by done.
  by apply resolve_canonical.
Qed.

(** What a successful [write_note] did. *)
Lemma write_note_success fuel path content createDirectories w r w' :
  callTool proc fuel
    {| tool := "write_note";
       args := WriteNoteArgs path content createDirectories |} w = (Ok r, w') →
  isError r = false →
  ∃ validPath w1 tr,
    validatePath proc (path.join [vaultDirectories0 proc; path]) w
      = (Ok validPath, w1) ∧
    Fs.writeFile (cwd proc) validPath content (World (w_disk w) tr)
      = (Ok (), w').
Proof.
  rewrite callTool_unfold.
  destruct (enableWrite (config proc)) eqn:He; cycle 1.
  { rewrite dispatch_gate by done. cbn. by intros [= <- _]. }
  rewrite dispatch_write_note by done.
  destruct (negb (Js.endsWith path ".md")); [cbn; by intros [= <- _]|].
  unfold bind.
  pose proof (validatePath_disk proc
                (path.join [vaultDirectories0 proc; path]) w) as Hd.
  destruct (validatePath proc _ w) as [[validPath|e|] w1] eqn:Hv;
    [|by intros [= <- _]|done].
  destruct (validatePath_parent_resolves _ _ _ _ _ Hv) as (rp & Hrp).
  cbn in Hd. destruct w1 as [d1 tr1]. cbn in Hd. subst d1.
  assert (∃ tr, (if createDirectories
                 then ensureDirectory proc (path.dirname validPath)
                 else ret ()) (World (w_disk w) tr1) =
                (Ok (), World (w_disk w) tr)) as (tr & ->).
  { destruct createDirectories; [|by eexists].
    unfold ensureDirectory, try_catch, Fs.access, bind, Fs.log, Fs.on_disk.
    cbn. rewrite Hrp. by eexists. }
  destruct (Fs.writeFile _ _ _ _) as [[[]|e|] w2] eqn:Hw;
    [|by intros [= <- _]|done].
  intros [= <- <-] _. by exists validPath, (World (w_disk w) tr1), tr.
Qed.
End NewNotes.

Section WriteThenRead.
Variable proc : Process.

Lemma readFile_resolved (p : string) (d : disk) (tr : list syscall)
    (r : list string) (content : string) :
  Fs.resolve (cwd proc) d p = Some r →
  d !! r = Some (File content) →
  (Fs.readFile (cwd proc) p (World d tr)).1 = Ok content.
Proof.
  intros Hr Hl. unfold Fs.readFile, bind, Fs.log, Fs.on_disk. cbn.
  by rewrite Hr, Hl.
Qed.

Lemma read_note_found filePath w validPath w1 content :
  validatePath proc (path.join [vaultDirectories0 proc; filePath]) w
    = (Ok validPath, w1) →
  (Fs.readFile (cwd proc) validPath w1).1 = Ok content →
  (read_note proc filePath w).1 =
    Ok (filePath +:+ ":" +:+ LF +:+ content +:+ LF).
Proof.
  intros Hv Hr. unfold read_note, try_catch, bind. rewrite Hv.
  destruct (Fs.readFile _ _ _) as [o w2]. cbn in Hr. by subst o.
Qed.

(** X20: what is written can be read back: after a [write_note] that did
    not answer with an error, [read_notes] of the same path gives the
    content that was written, whether the note was there before or
    not. *)
Theorem write_note_then_read
    fuel path content createDirectories w r w' :
  path.isAbsolute (cwd proc) = true →
  callTool proc fuel
    {| tool := "write_note";
       args := WriteNoteArgs path content createDirectories |} w = (Ok r, w') →
  isError r = false →
  (read_note proc path w').1 = Ok (path +:+ ":" +:+ LF +:+ content +:+ LF).
Proof.
  intros Hcwd Hcall Hok.
  destruct (write_note_success proc _ _ _ _ _ _ _ Hcall Hok)
    as (validPath & w1 & tr & Hv & Hw).
  set (full := path.join [vaultDirectories0 proc; path]) in *.
  destruct w as [d tr0]. cbn [w_disk] in Hw.
  revert Hw. unfold Fs.writeFile, bind, Fs.log, Fs.set_disk. cbn.
  destruct (Fs.resolve (cwd proc) d validPath) as [r0|] eqn:Hr0.
  - (* the note was there *)
    destruct (d !! r0) as [[old| |]|] eqn:Hl0; try done.
    intros [= <-].
    set (w2 := World (<[r0 := File content]> d)
                 (tr ++ [WriteFile validPath content])).
    pose proof (validatePath_same_shape proc full
                  (<[r0 := File content]> d) d
                  (tr ++ [WriteFile validPath content]) tr0
                  (shape_overwrite d r0 old content Hl0)) as Hsame.
    rewrite Hv in Hsame. cbn [fst] in Hsame. fold w2 in Hsame.
    pose proof (validatePath_disk proc full w2) as Hd.
    destruct (validatePath proc full w2) as [o [d2 tr2]] eqn:Hv2.
    cbn [fst snd w_disk w2] in Hsame, Hd. subst o d2.
    eapply read_note_found; [exact Hv2|].
    by eapply readFile_after_write.
  - (* the note is new *)
    destruct (reverse (Fs.segments validPath)) as [|base rest] eqn:Hseg;
      [done|].
    destruct (Fs.resolve (cwd proc) d (path.dirname validPath)) as [rp|]
      eqn:Hrp; [|done].
    destruct (Fs.node_at d rp) as [[]|] eqn:Hnode; try done.
    destruct (d !! (rp ++ [base])) eqn:Hfresh; [done|].
    intros [= <-].
    destruct (validatePath_Ok proc _ _ _ _ Hv)
      as (Hh & Ha & _ & [(r1 & Hr1 & ->)|(rp' & Hrp' & Hap & ->)]).
    { apply resolve_settled in Hr1.
      rewrite (resolve_settled_self _ _ _ Hr1) in Hr0. done. }
    cbn [w_disk] in *. fold full in Hr0, Hseg, Hrp, Hrp', Ha |- *.
    destruct (absolute_of_note proc path Hcwd) as (L & HL & HvL).
    fold full in HL. rewrite HL in *.
    rewrite segments_render in Hseg by done.
    destruct L as [|n L0 _] using rev_ind; [done|].
    rewrite reverse_snoc in Hseg. injection Hseg as <- _.
    apply Forall_app in HvL as [HvL0 [Hn _]%Forall_cons].
    rewrite dirname_render in * by done.
    rewrite Hrp in Hrp'. injection Hrp' as <-.
    set (d' := <[rp ++ [n] := File content]> d).
    assert (Fs.resolve (cwd proc) d' (Fs.render L0) = Some rp) as Hrp2.
    { rewrite resolve_render by done. apply walk_insert_fresh; [done|].
      by rewrite <- (resolve_render proc). }
    assert (d' !! (rp ++ [n]) = Some (File content)) as Hnew
      by apply lookup_insert_eq.
    assert (Fs.resolve (cwd proc) d' (Fs.render (L0 ++ [n])) =
            Some (rp ++ [n])) as Hnew2.
    { rewrite resolve_render
        by (apply Forall_app; split; [done|by constructor]).
      destruct Hn as (_ & Hn2 & Hn3 & _).
      apply walk_snoc_node with (File content); try done.
      - by rewrite <- (resolve_render proc).
      - unfold Fs.node_at in *. case_decide; [done|].
        unfold d'. rewrite lookup_insert_ne; [done|].
        intros Heq. apply (f_equal length) in Heq.
        rewrite length_app in Heq. cbn in Heq. lia. }
    set (w2 := World d' (tr ++ [WriteFile (Fs.render (L0 ++ [n])) content])).
    pose proof (validatePath_unfold proc full w2) as Hunf.
    cbn zeta in Hunf. fold full in Hunf. rewrite HL in Hunf.
    rewrite Hh, Ha in Hunf. cbn [w_disk w2] in Hunf. rewrite Hnew2 in Hunf.
    destruct (allowed proc (Fs.render (rp ++ [n]))) eqn:Hreal.
    + eapply read_note_found; [exact Hunf|]. unfold traced. cbn.
      eapply readFile_resolved; [|exact Hnew].
      apply resolve_settled_self. by eapply resolve_settled.
    + unfold parent_check in Hunf. cbn [w_disk w2] in Hunf.
      rewrite dirname_render, Hrp2, Hap in Hunf by done.
      eapply read_note_found; [exact Hunf|]. unfold traced. cbn.
      by eapply readFile_resolved.
Qed.
End WriteThenRead.

(** ** Confinement *)

Lemma within_bind_post {S A B} (R : relation S) `{!Transitive R} E
    (Q : A → Prop) (m : M S A) (k : A → M S B) :
  (∀ s a s', m s = (Ok a, s') → Q a) →
  within R E m → (∀ a, Q a → within R E (k a)) → within R E (bind m k).
Proof.
  intros HQ Hm Hk s. specialize (Hm s). specialize (HQ s). unfold bind.
  destruct (m s) as [[a|e|] s1]; cbn in *; [|done..].
  destruct Hm as [Hm _]. specialize (Hk a (HQ a s1 eq_refl) s1).
  destruct (k a s1) as [o s2]; cbn in *. destruct Hk as [Hk ?].
  split; [by etrans|done].
Qed.

Section Confinement.
Variable proc : Process.

Global Instance confined_preorder : PreOrder (confined proc).
Proof.
  split.
  - intros w. exists []. by rewrite app_nil_r.
  - intros w1 w2 w3 (t1 & Ht1 & Hl1) (t2 & Ht2 & Hl2).
    exists (t1 ++ t2). rewrite Ht2, Ht1, app_assoc.
    split; [done|by apply Forall_app].
Qed.

Lemma listed_only_confined w w' : listed_only w w' → confined proc w w'.
Proof.
  intros [_ (t & Ht & Hl)]. exists t. split; [done|].
  eapply Forall_impl; [done|]. by intros [].
Qed.

Lemma confined_step (w : world) (d : disk) (c : syscall) :
  confined_call proc c → confined proc w (World d (w_trace w ++ [c])).
Proof. intros Hc. exists [c]. split; [done|]. by constructor. Qed.

Lemma confined_readFile p :
  allowed proc p = true →
  within (confined proc) (λ _, True) (Fs.readFile (cwd proc) p).
Proof.
  intros Hp w. unfold Fs.readFile, bind, Fs.log, Fs.on_disk. cbn.
  split; [by apply confined_step|].
  destruct (Fs.resolve _ _ _) as [r|]; [|done].
  by destruct (_ !! r) as [[]|].
Qed.

Lemma confined_writeFile p content :
  allowed proc p = true →
  within (confined proc) (λ _, True) (Fs.writeFile (cwd proc) p content).
Proof.
  intros Hp w.
  destruct w as [d tr].
  destruct (writeFile_disk proc p content d) as (o & d' & ->).
  split; [by apply (confined_step (World d tr))|by destruct o].
Qed.

Lemma confined_ensureDirectory dirPath :
  within (confined proc) (λ _, True) (ensureDirectory proc dirPath).
Proof.
  intros w. unfold ensureDirectory, try_catch, Fs.access, Fs.mkdir, bind,
    Fs.log, Fs.on_disk, Fs.set_disk. cbn.
  destruct (Fs.resolve _ _ _); cbn; [split; [by apply confined_step|done]|].
  destruct (Fs.mkdir_from _ _ _); cbn;
    (split; [|done]); exists [Access dirPath; Mkdir dirPath];
    (split; [by rewrite <- app_assoc|by repeat constructor]).
Qed.

Lemma validatePath_allowed requestedPath s validPath s' :
  validatePath proc requestedPath s = (Ok validPath, s') →
  allowed proc validPath = true.
Proof.
  intros Hv. by destruct (validatePath_Ok proc _ _ _ _ Hv) as (_ & _ & ? & _).
Qed.

Lemma confined_validatePath requestedPath :
  within (confined proc) (λ _, True) (validatePath proc requestedPath).
Proof.
  eapply within_relax; [apply listed_only_confined|].
  by apply within_validatePath.
Qed.

Lemma confined_read_note filePath :
  within (confined proc) (λ _, True) (read_note proc filePath).
Proof.
  unfold read_note.
  apply within_try_catch with (E' := λ _, True);
    [apply _| |done|intros; apply within_ret; apply _].
  apply within_bind_post with (Q := λ v, allowed proc v = true);
    [apply _|apply validatePath_allowed|apply confined_validatePath|].
  intros validPath Hv.
  apply within_bind; [apply _|by apply confined_readFile|].
  intros content. apply within_ret; apply _.
Qed.

Lemma confined_read_all paths :
  within (confined proc) (λ _, True) (read_all proc paths).
Proof.
  induction paths as [|filePath paths IH]; cbn [read_all].
  - apply within_ret; apply _.
  - apply within_bind; [apply _|apply confined_read_note|]. intros r.
    apply within_bind; [apply _|apply IH|]. intros rs.
    apply within_ret; apply _.
Qed.

Lemma dispatch_confined fuel req :
  within (confined proc) (λ _, True) (dispatch proc fuel req).
Proof.
  unfold dispatch. cbn zeta.
  destruct (_ && _); [by apply within_throw; [apply _|]|].
  destruct (decide (tool req = "read_notes")) as [Hn|Hn1].
  { destruct (args req); try (by apply within_throw; [apply _|]).
    apply within_bind; [apply _| |intros; apply within_ret; apply _].
    apply confined_read_all. }
  destruct (decide (tool req = "search_notes")) as [Hn|Hn2].
  { destruct (args req); try (by apply within_throw; [apply _|]).
    apply within_bind; [apply _| |intros; apply within_ret; apply _].
    eapply within_relax; [apply listed_only_confined|].
    eapply within_weaken; [|apply within_searchNotes]. done. }
  destruct (decide (tool req = "write_note")) as [Hn|Hn3].
  { destruct (args req); try (by apply within_throw; [apply _|]).
    destruct (negb (Js.endsWith _ _)); [by apply within_throw; [apply _|]|].
    apply within_bind_post with (Q := λ v, allowed proc v = true);
      [apply _|apply validatePath_allowed|apply confined_validatePath|].
    intros validPath Hv.
    apply within_bind; [apply _| |intros _].
    { destruct createDirectories; [|apply within_ret; apply _].
      apply confined_ensureDirectory. }
    apply within_bind; [apply _| |intros; apply within_ret; apply _].
    by apply confined_writeFile. }
  destruct (decide (tool req = "update_note")) as [Hn|Hn4].
  { destruct (args req); try (by apply within_throw; [apply _|]).
    destruct (negb (Js.endsWith _ _)); [by apply within_throw; [apply _|]|].
    apply within_bind_post with (Q := λ v, allowed proc v = true);
      [apply _|apply validatePath_allowed|apply confined_validatePath|].
    intros validPath Hv.
    apply within_bind; [apply _| |intros finalContent].
    { case_decide; [|apply within_ret; apply _].
      apply within_bind; [apply _| |intros; apply within_ret; apply _].
      by apply confined_readFile. }
    apply within_bind; [apply _| |intros; apply within_ret; apply _].
    by apply confined_writeFile. }
  by apply within_throw; [apply _|].
Qed.

(** X21: confinement, as far as the code has it: whatever the request,
    every file that a tool call reads or writes is named by a path
    that passes the prefix check of [validatePath], that is, whose
    normalized form starts with the stored root. *)
Theorem tool_calls_confined fuel req w :
  ∃ t, w_trace (callTool proc fuel req w).2 = w_trace w ++ t ∧
       ∀ c, c ∈ t →
            match c with
            | ReadFile p | WriteFile p _ =>
                Js.startsWith (normalizePath p) (vaultDirectories0 proc) = true
            | _ => True
            end.
Proof.
  rewrite callTool_state.
  destruct (dispatch_confined fuel req w) as [(t & Ht & Hall) _].
  exists t. split; [done|]. intros c Hc.
  eapply Forall_forall in Hall; [|done].
  destruct c; try done;
    unfold confined_call, allowed, inAllowedDirectories in Hall;
    rewrite vaultDirectories_eq in Hall; cbn in Hall;
    by rewrite orb_false_r in Hall.
Qed.
End Confinement.

(** ** The results of a search *)

Section ResultStrings.

Lemma replace_unfold s pat rep :
  Js.replace s pat rep =
  if String.prefix pat s then rep +:+ Js.skip (String.length pat) s
  else match s with
       | "" => ""
       | String c s' => String c (Js.replace s' pat rep)
       end.
Proof. by destruct s. Qed.

Lemma prefix_app a b : String.prefix a (a +:+ b) = true.
Proof.
  induction a as [|c a IH]; [by destruct b|].
  rewrite string_app_cons. cbn [String.prefix].
  by destruct (ascii_dec c c).
Qed.

Lemma skip_app a b : Js.skip (String.length a) (a +:+ b) = b.
Proof. induction a as [|c a IH]; [done|]. by rewrite string_app_cons. Qed.

Lemma replace_prefix a b : Js.replace (a +:+ b) a "" = b.
Proof. by rewrite replace_unfold, prefix_app, skip_app. Qed.

Lemma join_app L M :
  L ≠ [] → M ≠ [] →
  Js.join "/" (L ++ M) = Js.join "/" L +:+ String "/" (Js.join "/" M).
Proof.
  intros HL HM. induction L as [|m L IH]; [done|].
  destruct L as [|m' L].
  - cbn [app]. destruct M as [|n M]; [done|]. done.
  - change (Js.join "/" ((m :: m' :: L) ++ M))
      with (m +:+ String "/" (Js.join "/" ((m' :: L) ++ M))).
    rewrite IH by done.
    change (Js.join "/" (m :: m' :: L))
      with (m +:+ String "/" (Js.join "/" (m' :: L))).
    by rewrite !string_app_assoc.
Qed.

Lemma render_app L0 M :
  M ≠ [] →
  Fs.render (L0 ++ M) = Fs.render L0 +:+ lead L0 +:+ Js.join "/" M.
Proof.
  intros HM. unfold Fs.render, lead. destruct (decide (L0 = [])) as [->|HL].
  - done.
  - rewrite join_app by done. by rewrite !string_app_assoc.
Qed.

(** A result of the search: the path below the root. *)
Lemma replace_render L0 M :
  M ≠ [] →
  Js.replace (Fs.render (L0 ++ M)) (Fs.render L0) "" =
  lead L0 +:+ Js.join "/" M.
Proof. intros HM. by rewrite render_app, replace_prefix. Qed.

Lemma endsWith_length s p :
  Js.endsWith s p = true → String.length p ≤ String.length s.
Proof.
  induction s as [|c s IH]; cbn.
  - rewrite orb_false_r. by intros <-%bool_decide_eq_true.
  - intros [<-%bool_decide_eq_true|H]%orb_true_iff; [done|].
    specialize (IH H). lia.
Qed.

Lemma endsWith_result L0 M n :
  Fs.valid_name n → Js.endsWith n ".md" = true →
  Js.endsWith (lead L0 +:+ Js.join "/" (M ++ [n])) ".md" = true.
Proof.
  intros (Hn & _) Hmd. pose proof (endsWith_length _ _ Hmd) as Hlen.
  rewrite join_snoc. case_decide.
  - by rewrite endsWith_app.
  - rewrite <- !string_app_assoc.
    change (String "/" n) with ("/" +:+ n). rewrite <- string_app_assoc.
    by rewrite endsWith_app.
Qed.

Lemma normalizeSegments_names segs :
  Forall (λ seg, seg = "" ∨ Fs.valid_name seg) segs →
  ∀ acc, path.normalizeSegments false acc segs =
         rev acc ++ filter (λ seg, seg ≠ "") segs.
Proof.
  induction 1 as [|seg segs Hseg _ IH]; intros acc;
    cbn [path.normalizeSegments].
  - by rewrite filter_nil, app_nil_r.
  - destruct Hseg as [->|(Hn1 & Hn2 & Hn3 & _)].
    + rewrite decide_True by (by left).
      rewrite filter_cons_False by (by intros ?). apply IH.
    + rewrite decide_False by (intros [?|?]; done).
      rewrite decide_False by done.
      rewrite filter_cons_True by done. rewrite IH. cbn [rev].
      by rewrite <- app_assoc.
Qed.

(** Joining the root and a result, as the tools do with the path of a
    note, gives back the canonical path of the entry. *)
Lemma join_result L0 M :
  Forall Fs.valid_name L0 → Forall Fs.valid_name M → M ≠ [] →
  path.join [Fs.render L0; lead L0 +:+ Js.join "/" M] = Fs.render (L0 ++ M).
Proof.
  intros HL HM Hne.
  destruct (exists_last Hne) as (M' & n & ->).
  pose proof HM as [HM' [Hn _]%Forall_cons]%Forall_app.
  pose proof Hn as (Hn1 & Hn2 & Hn3 & Hn4).
  pose proof split_join as Hsj. pose proof split_app as Hsa.
  unfold path.sep in Hsj.
  assert (lead L0 +:+ Js.join "/" (M' ++ [n]) ≠ "") as Hx.
  { unfold lead. case_decide; [|done].
    rewrite string_app_nil. by apply join_valid_not_empty. }
  unfold path.join. rewrite !filter_cons_True by done. rewrite filter_nil.
  rewrite join_pair. unfold path.normalize.
  assert (Fs.render L0 +:+ String "/" (lead L0 +:+ Js.join "/" (M' ++ [n]))
          ≠ "") as Hne' by done.
  rewrite decide_False by done.
  assert (path.isAbsolute
            (Fs.render L0 +:+ String "/" (lead L0 +:+ Js.join "/" (M' ++ [n])))
          = true) as -> by (unfold Fs.render; rewrite string_app_assoc;
                            apply isAbsolute_slash).
  cbn [negb].
  assert (path.normalizeString
            (Fs.render L0 +:+ String "/" (lead L0 +:+ Js.join "/" (M' ++ [n])))
            false = Js.join "/" (L0 ++ M' ++ [n])) as ->.
  { unfold path.normalizeString. f_equal.
    rewrite Hsa.
    assert (Js.split "/" (Fs.render L0) = "" :: L0 ∨
            (L0 = [] ∧ Js.split "/" (Fs.render L0) = [""; ""])) as HsL.
    { unfold Fs.render.
      change ("/" +:+ Js.join "/" L0) with (String "/" (Js.join "/" L0)).
      cbn [Js.split]. rewrite Ascii.eqb_refl.
      destruct L0 as [|m L0]; [by right|]. left.
      by rewrite Hsj;
        [|done|by eapply Forall_impl; [|apply valid_slash_free]]. }
    assert (Forall (λ seg, seg = "" ∨ Fs.valid_name seg)
              (Js.split "/" (Fs.render L0)) ∧
            filter (λ seg, seg ≠ "") (Js.split "/" (Fs.render L0)) = L0)
      as [HfL HfL'].
    { destruct HsL as [->|[-> ->]].
      - split.
        + constructor; [by left|]. eapply Forall_impl; [done|]. by right.
        + rewrite filter_cons_False by (by intros ?). by apply filter_valid.
      - split; [by repeat constructor; left|done]. }
    assert (Js.split "/" (lead L0 +:+ Js.join "/" (M' ++ [n])) =
            (if decide (L0 = []) then [] else [""]) ++ M' ++ [n]) as ->.
    { unfold lead. case_decide.
      - rewrite string_app_nil. cbn [app].
        rewrite Hsj; [done|by destruct M'|].
        by eapply Forall_impl; [|apply valid_slash_free].
      - change ("/" +:+ Js.join "/" (M' ++ [n]))
          with (String "/" (Js.join "/" (M' ++ [n]))).
        cbn [Js.split]. rewrite Ascii.eqb_refl.
        rewrite Hsj; [done|by destruct M'|].
        by eapply Forall_impl; [|apply valid_slash_free]. }
    rewrite normalizeSegments_names; cycle 1.
    { apply Forall_app. split; [done|]. apply Forall_app. split.
      - case_decide; [constructor|by repeat constructor; left].
      - eapply Forall_impl; [done|]. by right. }
    cbn [rev app]. rewrite filter_app, HfL'. f_equal.
    rewrite filter_app, (filter_valid (M' ++ [n])) by done.
    case_decide; [done|].
    by rewrite filter_cons_False, filter_nil by (by intros ?). }
  rewrite app_assoc.
  rewrite decide_False by (by apply join_valid_not_empty).
  assert (Js.endsWith
            (Fs.render L0 +:+ String "/" (lead L0 +:+ Js.join "/" (M' ++ [n])))
            "/" = false) as ->; [|by rewrite <- app_assoc].
  rewrite join_snoc.
  assert (∀ a, Js.endsWith (a +:+ n) "/" = false) as Hend.
  { intros a. rewrite endsWith_app; [|cbn; destruct n; [done|cbn; lia]|done].
    by apply endsWith_slash_free. }
  case_decide.
  - change (String "/" (lead L0 +:+ n)) with ("/" +:+ lead L0 +:+ n).
    rewrite <- !string_app_assoc. apply Hend.
  - change (String "/" (lead L0 +:+ Js.join "/" M' +:+ String "/" n))
      with ("/" +:+ lead L0 +:+ Js.join "/" M' +:+ "/" +:+ n).
    rewrite <- !string_app_assoc. apply Hend.
Qed.
End ResultStrings.

Lemma within_bind_at {S A B} (R : relation S) `{!Transitive R} E
    (m : M S A) (k : A → M S B) :
  within R E m →
  (∀ s a s1, m s = (Ok a, s1) →
             R s1 (k a s1).2 ∧
             match (k a s1).1 with
             | Ok _ => True
             | Throw e => E (Some e)
             | OutOfFuel => E None
             end) →
  within R E (bind m k).
Proof.
  intros Hm Hk s. specialize (Hm s). specialize (Hk s). unfold bind.
  destruct (m s) as [[a|e|] s1]; cbn in *; [|done..].
  destruct Hm as [Hm _]. specialize (Hk a s1 eq_refl).
  destruct (k a s1) as [o s2]; cbn in *. destruct Hk as [Hk ?].
  split; [by etrans|done].
Qed.

Section Reports.
Variable proc : Process.
Variable d : disk.
Variable L0 : list string.
Hypothesis HL0 : Forall Fs.valid_name L0.

Global Instance reports_preorder Q : PreOrder (reports Q d).
Proof.
  split.
  - intros s Hd. split; [done|]. exists []. by rewrite app_nil_r.
  - intros s1 s2 s3 H1 H2 Hd. destruct (H1 Hd) as [Hd2 (f1 & Hf1 & HQ1)].
    destruct (H2 Hd2) as [Hd3 (f2 & Hf2 & HQ2)]. split; [done|].
    exists (f1 ++ f2). rewrite Hf2, Hf1, app_assoc.
    split; [done|by apply Forall_app].
Qed.

Lemma reports_in_world {A} (m : M world A) :
  (∀ w, w_disk (m w).2 = w_disk w) →
  within (reports (reported proc d L0) d) (λ _, True) (in_world m).
Proof.
  intros Hm [w rs]. specialize (Hm w). unfold in_world. cbn.
  destruct (m w) as [o w']. cbn in *. split; [|by destruct o].
  intros Hd. cbn in *. split; [congruence|]. exists [].
  by rewrite app_nil_r.
Qed.

Lemma reports_push x :
  reported proc d L0 x →
  within (reports (reported proc d L0) d) (λ _, True) (push x).
Proof.
  intros HQ [w rs]. unfold push. cbn. split; [|done].
  intros Hd. split; [done|]. exists [x]. cbn. split; [done|by constructor].
Qed.

Lemma readdir_disk p w :
  w_disk (Fs.readdir (cwd proc) p w).2 = w_disk w.
Proof.
  destruct w as [d0 tr].
  destruct (reader_readdir proc p d0) as (o & t & H). by rewrite H.
Qed.

Lemma readdir_names p w entries w' :
  Fs.readdir (cwd proc) p w = (Ok entries, w') →
  Forall (λ e, Fs.valid_name (name e)) entries.
Proof.
  unfold Fs.readdir, bind, Fs.log, Fs.on_disk. cbn.
  destruct (Fs.resolve _ _ _) as [r|]; [|done].
  destruct (Fs.node_at _ r) as [[]|]; try done.
  intros [= <- _]. apply Forall_forall. intros e He.
  by apply entries_elem in He as [? _].
Qed.

Lemma reports_search_entry query descend K entry :
  Forall Fs.valid_name K →
  Fs.valid_name (name entry) →
  (∀ K', Forall Fs.valid_name K' →
         within (reports (reported proc d L0) d) (λ _, True)
           (descend (Fs.render (L0 ++ K')))) →
  within (reports (reported proc d L0) d) (λ _, True)
    (search_entry proc query descend (Fs.render L0) (Fs.render (L0 ++ K))
       entry).
Proof.
  intros HK Hn Hdescend. unfold search_entry.
  assert (Forall Fs.valid_name (K ++ [name entry])) as HK'
    by (apply Forall_app; split; [done|by constructor]).
  rewrite join_canonical, <- app_assoc
    by (done || by apply Forall_app).
  apply within_try_catch with (E' := λ _, True);
    [apply _| |done|intros; apply within_ret; apply _].
  apply within_bind_at; [apply _| |].
  { apply reports_in_world. apply validatePath_disk. }
  intros [w rs] validPath [w1 rs1] Hv.
  assert (within (reports (reported proc d L0) d) (λ _, True)
            (let! _ :=
               if Js.endsWith (name entry) ".md" &&
                  matches proc query (name entry)
               then push (Js.replace (Fs.render (L0 ++ K ++ [name entry]))
                            (Fs.render L0) "")
               else ret () in
             if isDirectory entry
             then descend (Fs.render (L0 ++ K ++ [name entry]))
             else ret ()) ∨ w_disk w1 ≠ d) as [Hrest|Hd1].
  { destruct (decide (w_disk w1 = d)) as [Hd1|Hd1]; [left|by right].
    apply within_bind; [apply _| |intros _];
      [|destruct (isDirectory entry);
        [by apply Hdescend|apply within_ret; apply _]].
    destruct (Js.endsWith (name entry) ".md") eqn:Hmd;
      [|apply within_ret; apply _].
    destruct (matches proc query (name entry));
      [|apply within_ret; apply _].
    apply reports_push. rewrite replace_render by (by destruct K).
    split; [by apply endsWith_result|].
    exists (K ++ [name entry]). split_and!; [done|..].
    - by apply join_result; [..|destruct K].
    - revert Hv. unfold in_world. cbn.
      pose proof (validatePath_disk proc
                    (Fs.render (L0 ++ K ++ [name entry])) w) as Hdw.
      destruct w as [dw trw].
      destruct (reader_validatePath proc
                  (Fs.render (L0 ++ K ++ [name entry])) dw) as (o & t & Hr).
      rewrite Hr in Hdw |- *. cbn in Hdw. intros [= -> <- _].
      cbn in Hd1. subst dw. exists validPath. intros tr. by rewrite Hr. }
  - apply Hrest.
  - split; [|by destruct (_ (w1, rs1)).1]. intros Hd. by destruct Hd1.
Qed.

Lemma reports_search_entries query descend K entries :
  Forall Fs.valid_name K →
  Forall (λ e, Fs.valid_name (name e)) entries →
  (∀ K', Forall Fs.valid_name K' →
         within (reports (reported proc d L0) d) (λ _, True)
           (descend (Fs.render (L0 ++ K')))) →
  within (reports (reported proc d L0) d) (λ _, True)
    (search_entries proc query descend (Fs.render L0) (Fs.render (L0 ++ K))
       entries).
Proof.
  intros HK Hes Hdescend.
  induction Hes as [|entry entries Hn _ IH]; cbn [search_entries].
  - apply within_ret; apply _.
  - apply within_bind; [apply _|by apply reports_search_entry|done].
Qed.

Lemma reports_search fuel query :
  ∀ K, Forall Fs.valid_name K →
       within (reports (reported proc d L0) d) (λ _, True)
         (search proc fuel query (Fs.render L0) (Fs.render (L0 ++ K))).
Proof.
  induction fuel as [|fuel IH]; intros K HK.
  - intros s. cbn. split; [reflexivity|done].
  - cbn [search]. apply within_bind_at; [apply _| |].
    { apply reports_in_world. apply readdir_disk. }
    intros [w rs] entries [w1 rs1] Hr.
    apply reports_search_entries; [done| |done].
    revert Hr. unfold in_world. cbn.
    destruct (Fs.readdir _ _ w) as [o w2] eqn:Hrd. intros [= -> _ _].
    by eapply readdir_names.
Qed.
End Reports.

Section Results.
Variable proc : Process.

(** X22: the results of a search can be given back to the other tools:
    every result ends in [.md], and joined to the root, as
    [read_notes], [write_note] and [update_note] join the path of a
    note, it is the canonical path of an entry below the root that
    [validatePath] accepts on the disk that was searched. *)
Theorem search_results_feed_back fuel query w results :
  path.isAbsolute (cwd proc) = true →
  (searchNotes proc fuel query w).1 = Ok results →
  Forall (λ x,
            Js.endsWith x ".md" = true ∧
            ∃ M validPath,
              Forall Fs.valid_name M ∧
              path.join [vaultDirectories0 proc; x] =
                Fs.render (Fs.segments (vaultDirectories0 proc) ++ M) ∧
              ∀ tr, (validatePath proc
                       (path.join [vaultDirectories0 proc; x])
                       (World (w_disk w) tr)).1 = Ok validPath)
         results.
Proof.
  intros Hcwd.
  destruct (vaultDirectories0_canonical proc Hcwd) as (L0 & HL & HvL).
  unfold searchNotes. rewrite vaultDirectories_eq. cbn [search_all].
  rewrite HL, segments_render by done.
  pose proof (reports_search proc (w_disk w) L0 HvL fuel query []
                (Forall_nil_2 _) (w, [])) as [Hrep _].
  rewrite app_nil_r in Hrep. unfold bind.
  destruct (search proc fuel query _ _ _) as [[[]|e|] [w' rs]]; try done.
  cbn in Hrep |- *. intros [= <-].
  destruct (Hrep eq_refl) as [_ (found & Hf & Hall)]. cbn in Hf. subst rs.
  eapply Forall_impl; [done|].
  intros x (Hmd & M & HM & Hj & validPath & Hv).
  split; [done|]. exists M, validPath. rewrite Hj. done.
Qed.
End Results.

(** ** [update_note] and the command line *)

Section Replace.
Variable proc : Process.

(** X23: [update_note] in the mode [replace] is [write_note] under
    another name: it does not look for the old note, so it creates a
    note that is not there.  The two calls leave the same world, they
    fail with the same error replies, and they succeed together. *)
Theorem update_replace_is_write_note fuel path content w :
  let update :=
    callTool proc fuel
      {| tool := "update_note";
         args := UpdateNoteArgs path content replace |} w in
  let write :=
    callTool proc fuel
      {| tool := "write_note"; args := WriteNoteArgs path content false |} w in
  update.2 = write.2 ∧
  ∃ r r', update.1 = Ok r ∧ write.1 = Ok r' ∧
          isError r = isError r' ∧ (isError r = true → r = r').
Proof.
  lazy beta zeta. rewrite !callTool_unfold.
  destruct (enableWrite (config proc)) eqn:He; cycle 1.
  { rewrite !dispatch_gate by done. cbn. split; [done|]. by eexists _, _. }
  rewrite dispatch_update_note, dispatch_write_note by done.
  destruct (negb (Js.endsWith path ".md"));
    [cbn; split; [done|]; by eexists _, _|].
  case_decide; [done|]. unfold bind, ret.
  pose proof (validatePath_no_timeout proc
                (path.join [vaultDirectories0 proc; path]) w) as Hnt.
  destruct (validatePath proc _ w) as [[validPath|e|] w1];
    [|cbn; split; [done|]; by eexists _, _|done].
  destruct w1 as [d1 tr1].
  destruct (writeFile_disk proc validPath content d1) as (o & d' & Hw).
  rewrite Hw.
  assert (o ≠ OutOfFuel) as Ho.
  { specialize (Hw []). revert Hw.
    unfold Fs.writeFile, bind, Fs.log, Fs.set_disk. cbn.
    repeat (match goal with
            | |- context [match ?x with _ => _ end] => destruct x
            end; cbn); by intros [= <- _]. }
  destruct o as [[]|e|]; [| |done]; cbn; (split; [done|]); by eexists _, _.
Qed.
End Replace.

Section CommandLineTools.

(** X24: from the command line to the list of tools: a server that
    starts offers the two write tools exactly when one of the flags
    was given. *)
Theorem write_tools_listed_with_flag args config :
  parseArgs args = Some config →
  Tool.name <$> listTools config =
    if existsb write_flag args
    then ["read_notes"; "search_notes"; "write_note"; "update_note"]
    else ["read_notes"; "search_notes"].
Proof.
  unfold parseArgs. rewrite parseArgs_loop_spec. cbn.
  case_bool_decide; [done|]. intros [= <-]. unfold listTools. cbn.
  by destruct (existsb write_flag args).
Qed.

(** X25: the paths that the server validates are absolute: the tools
    join the path of a note to the stored root, and a search joins the
    name of an entry to the directory it lists; so the expansion of [~]
    in [validatePath] never applies to them. *)
Theorem joined_paths_not_expanded proc dir p :
  path.isAbsolute dir = true →
  path.isAbsolute (path.join [dir; p]) = true ∧
  expandHome proc (path.join [dir; p]) = path.join [dir; p] ∧
  absolute_of proc (path.join [dir; p]) =
    path.resolve (cwd proc) [path.join [dir; p]].
Proof.
  intros Hdir. pose proof (join_absolute dir p Hdir) as Habs.
  split_and!; [done|by apply expandHome_absolute|].
  unfold absolute_of. by rewrite expandHome_absolute, Habs.
Qed.
End CommandLineTools.

(** ** The further properties on the example vaults *)

(** Witness of X2: the server started without the flag turns
    [update_note] away. *)
Lemma write_tools_gated_witness :
  callTool Vault_proc 3
    {| tool := "update_note"; args := UpdateNoteArgs "a.md" "text" append |}
    Vault_world
  = (Ok (error_reply WriteDisabled), Vault_world).
Proof.
  apply (write_tools_gated Vault_proc 3
           {| tool := "update_note";
              args := UpdateNoteArgs "a.md" "text" append |} Vault_world);
    reflexivity.
Defined.

(** Witness of X3: [a/ok.txt] is no note. *)
Lemma write_tools_require_md_witness :
  callTool vault_proc 3
    {| tool := "write_note"; args := WriteNoteArgs "a/ok.txt" "text" true |}
    vault_world
  = (Ok (error_reply ExtensionRequired), vault_world).
Proof.
  apply (write_tools_require_md vault_proc 3
           {| tool := "write_note";
              args := WriteNoteArgs "a/ok.txt" "text" true |}
           "a/ok.txt" vault_world); reflexivity.
Defined.

(** Witness of X4: there is no tool [delete_note]. *)
Lemma unknown_tool_rejected_witness :
  callTool vault_proc 3 {| tool := "delete_note"; args := OtherArgs |}
    vault_world
  = (Ok (error_reply (UnknownTool "delete_note")), vault_world).
Proof.
  apply (unknown_tool_rejected vault_proc 3
           {| tool := "delete_note"; args := OtherArgs |} vault_world).
  apply (bool_decide_unpack _). vm_compute. exact I.
Defined.


(** Witness of X7: reading two notes, one of them missing, in the
    example vault. *)
Lemma callTool_read_only_witness :
  w_disk (callTool vault_proc 3
            {| tool := "read_notes";
               args := ReadNotesArgs ["a/ok.md"; "b/none.md"] |}
            vault_world).2 = vault_disk.
Proof.
  apply (callTool_read_only vault_proc 3
           {| tool := "read_notes";
              args := ReadNotesArgs ["a/ok.md"; "b/none.md"] |} vault_world).
  right. reflexivity.
Defined.

(** Witness of X8: a search of the example vault. *)
Lemma search_notes_lists_only_witness :
  listed_only vault_world
    (callTool vault_proc 4
       {| tool := "search_notes"; args := SearchNotesArgs "ok" |}
       vault_world).2.
Proof.
  apply (search_notes_lists_only vault_proc 4
           {| tool := "search_notes"; args := SearchNotesArgs "ok" |}
           vault_world).
  reflexivity.
Defined.

(** Witness of X9: the example vault is three levels deep. *)
Lemma callTool_replies_witness :
  ∃ r, (callTool vault_proc 4
          {| tool := "search_notes"; args := SearchNotesArgs "ok" |}
          vault_world).1 = Ok r.
Proof.
  apply (callTool_replies vault_proc 4
           {| tool := "search_notes"; args := SearchNotesArgs "ok" |}
           vault_world).
  intros _. split; [reflexivity|]. vm_compute. lia.
Defined.

(** Witness of X10: the error reply of [write_note] below a directory
    that does not exist. *)
Lemma callTool_error_replies_witness :
  ∃ e, error_reply (ParentMissing "/vault/sub") = error_reply e ∧
       dispatch_error vault_proc
         {| tool := "write_note";
            args := WriteNoteArgs "sub/note.md" "text" true |} e.
Proof.
  apply (callTool_error_replies vault_proc 3
           {| tool := "write_note";
              args := WriteNoteArgs "sub/note.md" "text" true |}
           vault_world (error_reply (ParentMissing "/vault/sub")));
    reflexivity.
Defined.


(** Witness of X14: appending to a note that does not exist. *)
Lemma update_note_unreadable_witness :
  callTool vault_proc 3
    {| tool := "update_note";
       args := UpdateNoteArgs "a/new.md" "line2" append |} vault_world
  = (Ok (error_reply (IoError "open" "/vault/a/new.md")),
     World vault_disk
       [Realpath "/vault/a/new.md"; Realpath "/vault/a";
        ReadFile "/vault/a/new.md"]).
Proof.
  apply (update_note_unreadable vault_proc 3 "a/new.md" "line2" append
           vault_world "/vault/a/new.md"
           (traced vault_world
              [Realpath "/vault/a/new.md"; Realpath "/vault/a"])
           (IoError "open" "/vault/a/new.md")); try reflexivity.
  discriminate.
Defined.

(** Witness of X15. *)
Lemma normalizePath_ignores_case_witness :
  normalizePath "/Vault/A.md" = normalizePath "/vault/a.MD" ∧
  allowed vault_proc "/Vault/A.md" = allowed vault_proc "/vault/a.MD".
Proof.
  apply (normalizePath_ignores_case vault_proc "/Vault/A.md" "/vault/a.MD").
  reflexivity.
Defined.

(** Witness of X16: the vault [/Vault] is stored as [/vault]. *)
Lemma root_normalized_witness :
  path.isAbsolute (vaultDirectories0 Vault_proc) = true ∧
  normalizePath (vaultDirectories0 Vault_proc) = vaultDirectories0 Vault_proc ∧
  allowed Vault_proc (vaultDirectories0 Vault_proc) = true.
Proof. apply (root_normalized Vault_proc). reflexivity. Defined.

(** Witness of X17: the entry [.hidden] of the example vault. *)
Lemma search_skips_dot_entry_witness :
  search_entry vault_proc "secret" (search vault_proc 3 "secret" "/vault")
    "/vault" "/vault" {| name := ".hidden"; isDirectory := true |}
    (vault_world, [])
  = (Ok (), (vault_world, [])).
Proof.
  apply (search_skips_dot_entry vault_proc "secret"
           (search vault_proc 3 "secret" "/vault") "/vault" "/vault"
           {| name := ".hidden"; isDirectory := true |} (vault_world, [])).
  - exists ["vault"]. split; [reflexivity|].
    repeat constructor; discriminate.
  - repeat split; discriminate.
  - reflexivity.
Defined.


(** Witness of X20: the new note [a/new.md] of the example vault. *)
Lemma write_note_then_read_witness :
  (read_note vault_proc "a/new.md"
     (World (<[ ["vault"; "a"; "new.md"] := File "text" ]> vault_disk)
        [Realpath "/vault/a/new.md"; Realpath "/vault/a";
         WriteFile "/vault/a/new.md" "text"])).1
  = Ok ("a/new.md" +:+ ":" +:+ LF +:+ "text" +:+ LF).
Proof.
  apply (write_note_then_read vault_proc 3 "a/new.md" "text" false vault_world
           {| text := "Successfully wrote note to a/new.md";
              isError := false |}); reflexivity.
Defined.

(** Witness of X22: the two notes that the search for [ok] finds. *)
Lemma search_results_feed_back_witness :
  Forall (λ x,
            Js.endsWith x ".md" = true ∧
            ∃ M validPath,
              Forall Fs.valid_name M ∧
              path.join [vaultDirectories0 vault_proc; x] =
                Fs.render (Fs.segments (vaultDirectories0 vault_proc) ++ M) ∧
              ∀ tr, (validatePath vault_proc
                       (path.join [vaultDirectories0 vault_proc; x])
                       (World (w_disk vault_world) tr)).1 = Ok validPath)
         ["/b/ok2.md"; "/a/ok.md"].
Proof.
  apply (search_results_feed_back vault_proc 4 "ok" vault_world
           ["/b/ok2.md"; "/a/ok.md"]); reflexivity.
Defined.

(** Witness of X24: the command line [-w /vault /other]. *)
Lemma write_tools_listed_with_flag_witness :
  Tool.name <$> listTools (config vault_proc) =
    ["read_notes"; "search_notes"; "write_note"; "update_note"].
Proof.
  apply (write_tools_listed_with_flag ["-w"; "/vault"; "/other"]
           (config vault_proc)).
  reflexivity.
Defined.

(** Witness of X25: the note [~/a.md] is looked for below the vault. *)
Lemma joined_paths_not_expanded_witness :
  path.isAbsolute (path.join ["/vault"; "~/a.md"]) = true ∧
  expandHome vault_proc (path.join ["/vault"; "~/a.md"]) =
    path.join ["/vault"; "~/a.md"] ∧
  absolute_of vault_proc (path.join ["/vault"; "~/a.md"]) =
    path.resolve (cwd vault_proc) [path.join ["/vault"; "~/a.md"]].
Proof.
  apply (joined_paths_not_expanded vault_proc "/vault" "~/a.md").
  reflexivity.
Defined.

(** The command lines of the two example servers. *)
Example parseArgs_example :
  parseArgs ["/vault"; "--enable-write"] = Some (config vault_proc) ∧
  parseArgs ["-w"; "/vault"; "/other"] = Some (config vault_proc) ∧
  parseArgs ["/Vault"] = Some (config Vault_proc) ∧
  parseArgs ["-w"; ""] = None.
Proof. split_and!; reflexivity. Qed.
